(** * NextSwapDex maintenance scripts: [fix_revert.py] and
      [fix_solidity_version.py]

    Both scripts walk a directory tree, read every file whose name ends
    with [.sol], run one [re.sub] over the text and write the file back
    when the text changed.  This development embeds

    - the part of Python's [re] module the two patterns use (a
      backtracking matcher over a small regular-expression syntax, and
      the scanning loop of [re.sub]);
    - text-mode file access ([open(..., encoding='utf-8')] with universal
      newlines) over a disk that maps path strings to file contents;
    - [os.walk], [os.path.join], [str.endswith] and the two loops.

    A Python [str] is a sequence of code points; a text is a [list N].
    The content of a file is kept as the code points its bytes encode
    (UTF-8 is one-to-one on them), line ends as stored.  A path that
    the disk does not map cannot be opened or decoded: reading it
    raises.  Writing a file raises when the file is write-protected or
    when the device fails; which paths are so is given with the disk.
    Directories hold files and directories only, and their listing does
    not change during a run (the scripts create and delete nothing). *)

From Stdlib Require Import String Ascii.
From stdpp Require Import base numbers list option gmap.

Set Warnings "-register-all".

Local Open Scope N_scope.

(** ** Texts *)

Definition text := list N.

(** The text of an ASCII literal of the scripts. *)
Definition str (s : string) : text :=
  map N_of_ascii (list_ascii_of_string s).
Arguments str s%_string : simpl never.

(** ** The regular expressions of the scripts *)

Module Re.

(** Syntax: the constructs that occur in the two patterns.  [Cls] is a
    bracket class given by its ranges, [Star] the greedy repetition and
    [Group n] the n-th capturing group. *)
Inductive regex :=
| Eps
| Str (l : text)
| Cls (ranges : list (N * N))
| Cat (r1 r2 : regex)
| Star (r : regex)
| Group (n : nat) (r : regex).

(** Captured groups, most recent binding first. *)
Definition caps := list (nat * text).

Fixpoint group (n : nat) (g : caps) : text :=
  match g with
  | [] => []
  | (i, t) :: g' => if Nat.eqb i n then t else group n g'
  end.

Definition in_class (c : N) (ranges : list (N * N)) : bool :=
  existsb (fun r => (fst r <=? c) && (c <=? snd r)) ranges.

Fixpoint strip_prefix (p s : text) : option text :=
  match p, s with
  | [], _ => Some s
  | a :: p', b :: s' => if a =? b then strip_prefix p' s' else None
  | _ :: _, [] => None
  end.

(** The matcher is written in continuation-passing style: [k] is what
    remains to be matched after [r]; a [None] from the continuation makes
    the matcher try its next alternative, as the backtracking engine of
    Python does. *)
Definition cont := text -> caps -> option (text * caps).

(** Greedy repetition: first one more iteration (which has to consume
    something), then, if everything after it fails, the rest of the
    pattern from here. *)
Fixpoint star_loop (step : text -> caps -> cont -> option (text * caps))
    (fuel : nat) (s : text) (g : caps) (k : cont) : option (text * caps) :=
  match fuel with
  | O => k s g
  | S n =>
      match step s g (fun s' g' =>
                        if (length s' <? length s)%nat
                        then star_loop step n s' g' k else None) with
      | Some r => Some r
      | None => k s g
      end
  end.

Fixpoint run (r : regex) (s : text) (g : caps) (k : cont)
    : option (text * caps) :=
  match r with
  | Eps => k s g
  | Str l =>
      match strip_prefix l s with
      | Some s' => k s' g
      | None => None
      end
  | Cls ranges =>
      match s with
      | c :: s' => if in_class c ranges then k s' g else None
      | [] => None
      end
  | Cat r1 r2 => run r1 s g (fun s' g' => run r2 s' g' k)
  | Star r1 => star_loop (run r1) (length s) s g k
  | Group n r1 =>
      run r1 s g
        (fun s' g' => k s' ((n, take (length s - length s') s) :: g'))
  end.

(** A match of [r] at the start of [s]: its length and its groups.  With
    [must_advance] an empty match is refused (the engine goes on
    backtracking for a non-empty one). *)
Definition match_at (must_advance : bool) (r : regex) (s : text)
    : option (nat * caps) :=
  match run r s []
          (fun s' g =>
             if must_advance && (length s' =? length s)%nat
             then None else Some (s', g)) with
  | Some (s', g) => Some ((length s - length s')%nat, g)
  | None => None
  end.

(** Replacement templates, as [re] parses them: literal text and
    backreferences. *)
Inductive titem :=
| TLit (t : text)
| TGroup (n : nat).

Definition template := list titem.

Definition expand (tpl : template) (g : caps) : text :=
  flat_map (fun it => match it with
                      | TLit t => t
                      | TGroup n => group n g
                      end) tpl.

(** The loop of [re.sub] (count = 0).  [skip] counts the characters of
    the current match that are still to be passed over.  After an empty
    match the search resumes at the same position and must advance. *)
Fixpoint sub_from (r : regex) (tpl : template) (skip : nat) (s : text)
    {struct s} : text :=
  match s with
  | [] =>
      match skip with
      | O =>
          match match_at false r [] with
          | Some (_, g) => expand tpl g
          | None => []
          end
      | S _ => []
      end
  | c :: s' =>
      match skip with
      | S n => sub_from r tpl n s'
      | O =>
          match match_at false r (c :: s') with
          | None => c :: sub_from r tpl 0 s'
          | Some (S n, g) => expand tpl g ++ sub_from r tpl n s'
          | Some (O, g) =>
              expand tpl g ++
              match match_at true r (c :: s') with
              | Some (S n, g2) => expand tpl g2 ++ sub_from r tpl n s'
              | _ => c :: sub_from r tpl 0 s'
              end
          end
      end
  end.

Definition sub (r : regex) (tpl : template) (s : text) : text :=
  sub_from r tpl 0 s.

(** The loop of [re.findall] and [re.finditer]: the groups of the
    matches that [sub] replaces, in order. *)
Fixpoint findall_from (r : regex) (skip : nat) (s : text) {struct s}
    : list caps :=
  match s with
  | [] =>
      match skip with
      | O =>
          match match_at false r [] with
          | Some (_, g) => [g]
          | None => []
          end
      | S _ => []
      end
  | c :: s' =>
      match skip with
      | S n => findall_from r n s'
      | O =>
          match match_at false r (c :: s') with
          | None => findall_from r 0 s'
          | Some (S n, g) => g :: findall_from r n s'
          | Some (O, g) =>
              g ::
              match match_at true r (c :: s') with
              | Some (S n, g2) => g2 :: findall_from r n s'
              | _ => findall_from r 0 s'
              end
          end
      end
  end.

Definition findall (r : regex) (s : text) : list caps :=
  findall_from r 0 s.

(** [re.search(r, s) is not None]. *)
Fixpoint search (r : regex) (s : text) : bool :=
  match match_at false r s with
  | Some _ => true
  | None =>
      match s with
      | [] => false
      | _ :: s' => search r s'
      end
  end.

End Re.

(** ** The two substitution rules *)

Definition upper : list (N * N) := [(65, 90)].
Definition alnum : list (N * N) := [(97, 122); (65, 90); (48, 57)].

(** fix_revert.py: [pattern] is the text [revert], then group 1, an
    upper-case letter [A-Z] followed by any number of [a-zA-Z0-9], then
    the three characters "();".  The replacement template is "revert ",
    the text of group 1 and "();". *)
Definition pattern : Re.regex :=
  Re.Cat (Re.Str (str "revert"))
    (Re.Cat (Re.Group 1 (Re.Cat (Re.Cls upper) (Re.Star (Re.Cls alnum))))
       (Re.Str (str "();"))).

Definition revert_repl : Re.template :=
  [Re.TLit (str "revert "); Re.TGroup 1; Re.TLit (str "();")].

Definition fix_revert (content : text) : text :=
  Re.sub pattern revert_repl content.

(** What [pattern] matches at the start of a text, read off the pattern:
    the identifier it captures and the text after the match. *)
Fixpoint take_class (cls : list (N * N)) (s : text) : text :=
  match s with
  | c :: s' => if Re.in_class c cls then c :: take_class cls s' else []
  | [] => []
  end.

Fixpoint drop_class (cls : list (N * N)) (s : text) : text :=
  match s with
  | c :: s' => if Re.in_class c cls then drop_class cls s' else s
  | [] => []
  end.

Definition is_ident (g : text) : bool :=
  match g with
  | c :: a => Re.in_class c upper && forallb (fun d => Re.in_class d alnum) a
  | [] => false
  end.

Definition revert_at (s : text) : option (text * text) :=
  match Re.strip_prefix (str "revert") s with
  | Some (c :: s1) =>
      if Re.in_class c upper then
        match Re.strip_prefix (str "();") (drop_class alnum s1) with
        | Some rest => Some (c :: take_class alnum s1, rest)
        | None => None
        end
      else None
  | _ => None
  end.

(** The identifiers that [fix_revert] moves: group 1 of each match, as
    [re.findall(pattern, x)] lists them. *)
Definition captured (x : text) : list text :=
  map (Re.group 1) (Re.findall pattern x).


(** fix_solidity_version.py: the pattern is the literal text
    "pragma solidity =0.8.15;" (its dots are escaped), replaced by
    "pragma solidity ^0.8.20;". *)
Definition pragma_old : text := str "pragma solidity =0.8.15;".
Definition pragma_new : text := str "pragma solidity ^0.8.20;".

Definition pragma_pattern : Re.regex := Re.Str pragma_old.
Definition pragma_repl : Re.template := [Re.TLit pragma_new].

Definition fix_pragma (content : text) : text :=
  Re.sub pragma_pattern pragma_repl content.

(** ** Paths and file names *)

Inductive platform := Posix | Windows.

(** [os.sep], and the characters [os.path.join] takes for a separator. *)
Definition os_sep (plat : platform) : N :=
  match plat with Posix => 47 | Windows => 92 end.

Definition is_sep (plat : platform) (c : N) : bool :=
  match plat with
  | Posix => c =? 47
  | Windows => (c =? 92) || (c =? 47)
  end.

(** [os.linesep]. *)
Definition os_linesep (plat : platform) : text :=
  match plat with Posix => [10] | Windows => [13; 10] end.

(** [os.path.join(a, b)] where [b] is the name of a directory entry (it
    has no drive and no separator) and [a] a directory path of the walk:
    a separator is put between the two unless [a] ends with one. *)
Definition os_path_join (plat : platform) (a b : text) : text :=
  match last a with
  | Some c => if is_sep plat c then a ++ b else a ++ os_sep plat :: b
  | None => b
  end.

(** [s.endswith(suffix)]. *)
Definition endswith (s suffix : text) : bool :=
  (length suffix <=? length s)%nat
  && bool_decide (drop (length s - length suffix) s = suffix).

(** ** Files *)

(** Reading in text mode with the default [newline=None]: the lines of
    the file may end in LF, CR or CR LF, and all three are read as LF. *)
Fixpoint universal_newlines (raw : text) : text :=
  match raw with
  | [] => []
  | c :: r =>
      if c =? 13 then
        match r with
        | c2 :: r2 =>
            if c2 =? 10 then 10 :: universal_newlines r2
            else 10 :: universal_newlines r
        | [] => [10]
        end
      else c :: universal_newlines r
  end.

(** Writing in text mode with the default [newline=None]: every LF is
    written as [os.linesep]. *)
Definition write_newlines (plat : platform) (t : text) : text :=
  flat_map (fun c => if c =? 10 then os_linesep plat else [c]) t.

(** A directory entry as [os.scandir] lists it. *)
Inductive dirent :=
| FileEnt (name : text)
| DirEnt (name : text) (entries : list dirent).

Definition dirnames (es : list dirent) : list text :=
  flat_map (fun e => match e with DirEnt n _ => [n] | FileEnt _ => [] end) es.

Definition filenames (es : list dirent) : list text :=
  flat_map (fun e => match e with FileEnt n => [n] | DirEnt _ _ => [] end) es.

(** What the script acts on and what it does.  [tree] is the listing of
    the directory the walk starts from, [None] when there is no such
    directory.  [disk] gives the content of each file that can be opened
    and decoded as UTF-8, as code points and with its line ends as they
    are stored.  [trace] records the file accesses and the printed lines,
    oldest first. *)
Inductive event :=
| Read (path : text)
| Write (path : text) (data : text)
| Print (line : text).

Record world := World {
  tree : option (list dirent);
  disk : gmap text text;
  trace : list event
}.

Definition log (e : event) (w : world) : world :=
  World (tree w) (disk w) (trace w ++ [e]).

(** An uncaught exception ends the script. *)
Inductive outcome := Completed | Raised.

(** [os.walk(top)], top-down: the triple of a directory, then the walks
    of its sub-directories in listing order.  An error of [os.scandir] is
    ignored ([onerror] is [None]): a missing [top] gives nothing. *)
Fixpoint walk_dir (plat : platform) (parent : text) (e : dirent)
    : list (text * list text * list text) :=
  match e with
  | FileEnt _ => []
  | DirEnt n es =>
      let here := os_path_join plat parent n in
      (here, dirnames es, filenames es) :: flat_map (walk_dir plat here) es
  end.

Definition os_walk (plat : platform) (top : text)
    (t : option (list dirent)) : list (text * list text * list text) :=
  match t with
  | None => []
  | Some es =>
      (top, dirnames es, filenames es) :: flat_map (walk_dir plat top) es
  end.

(** [with open(p, 'r', encoding='utf-8') as f: content = f.read()]. *)
Definition read_file (p : text) (w : world) : option text * world :=
  (universal_newlines <$> disk w !! p, log (Read p) w).

(** What goes wrong when a path is written.  [Refused]: [open(p, 'w')]
    raises (the file is write-protected) and the file is as it was.
    [Broken remains]: the file is opened, which empties it, and [f.write]
    or the closing of the file raises (the device is full, an I/O
    error); the file then holds [remains]. *)
Inductive fault :=
| Refused
| Broken (remains : text).

(** [with open(p, 'w', encoding='utf-8') as f: f.write(t)], where
    [faults] gives the paths whose writing fails. *)
Definition write_file (plat : platform) (faults : gmap text fault)
    (p t : text) (w : world) : outcome * world :=
  match faults !! p with
  | None =>
      let data := write_newlines plat t in
      (Completed,
       World (tree w) (<[p := data]> (disk w)) (trace w ++ [Write p data]))
  | Some Refused => (Raised, w)
  | Some (Broken remains) =>
      (Raised,
       World (tree w) (<[p := remains]> (disk w))
         (trace w ++ [Write p remains]))
  end.

Definition print (line : text) (w : world) : world := log (Print line) w.

(** A [for] loop whose body may raise. *)
Fixpoint for_each {A} (body : A -> world -> outcome * world) (l : list A)
    (w : world) : outcome * world :=
  match l with
  | [] => (Completed, w)
  | x :: l' =>
      match body x w with
      | (Completed, w') => for_each body l' w'
      | (Raised, w') => (Raised, w')
      end
  end.

(** ** The scripts *)

(** The two scripts are the same loops around different constants: the
    directory, the pattern and its replacement, the message and what is
    printed at the end. *)
Record script := Script {
  top : text;
  pat : Re.regex;
  repl : Re.template;
  message : text -> text;
  epilogue : list text
}.

Section Run.
Variable plat : platform.
Variable sc : script.
Variable faults : gmap text fault.

Definition process (file_path : text) (w : world) : outcome * world :=
  match read_file file_path w with
  | (None, w1) => (Raised, w1)
  | (Some content, w1) =>
      let new_content := Re.sub (pat sc) (repl sc) content in
      if bool_decide (new_content <> content) then
        match write_file plat faults file_path new_content w1 with
        | (Completed, w2) => (Completed, print (message sc file_path) w2)
        | (Raised, w2) => (Raised, w2)
        end
      else (Completed, w1)
  end.

Definition visit (root file : text) (w : world) : outcome * world :=
  if endswith file (str ".sol")
  then process (os_path_join plat root file) w
  else (Completed, w).

Definition main (w : world) : outcome * world :=
  match
    for_each (fun t w => for_each (visit (fst (fst t))) (snd t) w)
      (os_walk plat (top sc) (tree w)) w
  with
  | (Completed, w') => (Completed, foldl (fun w l => print l w) w' (epilogue sc))
  | (Raised, w') => (Raised, w')
  end.
End Run.

Definition contracts_dir : text :=
  str "E:\ReactWorkplace\Web3-Study\NextSwapDex\contracts".

Definition periphery_dir : text :=
  str "contracts\contract\swap\periphery".

Definition fix_revert_py : script :=
  Script contracts_dir pattern revert_repl
    (fun file_path => str "Fixed " ++ file_path) [].

Definition fix_solidity_version_py : script :=
  Script periphery_dir pragma_pattern pragma_repl
    (fun file_path => str "Updated: " ++ file_path) [str "Done!"].

(** The two scripts by name. *)
Inductive which := FixRevert | FixSolidityVersion.

Definition script_of (s : which) : script :=
  match s with
  | FixRevert => fix_revert_py
  | FixSolidityVersion => fix_solidity_version_py
  end.

(** What each script puts before the path in its message. *)
Definition label (s : which) : text :=
  match s with
  | FixRevert => str "Fixed "
  | FixSolidityVersion => str "Updated: "
  end.

(** A run from a given directory listing and disk, nothing done yet,
    where the writing of the paths of [faults] fails. *)
Definition run_with (plat : platform) (s : which) (faults : gmap text fault)
    (t : option (list dirent)) (d : gmap text text) : outcome * world :=
  main plat (script_of s) faults (World t d []).

(** A run in which every file that can be read can be written. *)
Definition run (plat : platform) (s : which) (t : option (list dirent))
    (d : gmap text text) : outcome * world :=
  run_with plat s ∅ t d.

(** ** What a run has done, read off its trace *)

Definition reads (tr : list event) : list text :=
  flat_map (fun e => match e with Read p => [p] | _ => [] end) tr.

Definition writes (tr : list event) : list text :=
  flat_map (fun e => match e with Write p _ => [p] | _ => [] end) tr.

Definition prints (tr : list event) : list text :=
  flat_map (fun e => match e with Print l => [l] | _ => [] end) tr.

(** The paths the loops hand to [open], in order: the joined path of
    each listed file whose name ends with [.sol]. *)
Definition targets (plat : platform) (top : text)
    (t : option (list dirent)) : list text :=
  flat_map (fun tr =>
              map (os_path_join plat (fst (fst tr)))
                (filter (fun f => endswith f (str ".sol") = true) (snd tr)))
    (os_walk plat top t).

(** The text a script computes from the stored content of a file, and
    what it stores when that text differs from the text read. *)
Definition new_text (sc : script) (raw : text) : text :=
  Re.sub (pat sc) (repl sc) (universal_newlines raw).

Definition changes (sc : script) (raw : text) : bool :=
  bool_decide (new_text sc raw <> universal_newlines raw).

Definition stored_after (plat : platform) (sc : script) (raw : text) : text :=
  if changes sc raw then write_newlines plat (new_text sc raw) else raw.

(** Whether the script changes the file at [p] of disk [d]. *)
Definition modifies (sc : script) (d : gmap text text) (p : text) : bool :=
  match d !! p with
  | Some raw => changes sc raw
  | None => false
  end.

(** ** Substitution, in the words of the specification *)

(** [Rewrites M tpl s t]: [t] is [s] with every leftmost non-overlapping
    match replaced, once, left to right.  [M m g] says that the text [m]
    is a match with groups [g].  At each position either no match starts
    there and the character is kept, or a match starts there, its
    expansion is written and the scan goes on after it. *)
Inductive Rewrites (M : text -> Re.caps -> Prop) (tpl : Re.template)
    : text -> text -> Prop :=
| Rw_end : Rewrites M tpl [] []
| Rw_keep c s t :
    (forall m g rest, M m g -> c :: s <> m ++ rest) ->
    Rewrites M tpl s t ->
    Rewrites M tpl (c :: s) (c :: t)
| Rw_match m g rest t :
    M m g ->
    Rewrites M tpl rest t ->
    Rewrites M tpl (m ++ rest) (Re.expand tpl g ++ t).

(** The matches of the two patterns, as the specification describes
    them: [revert<Identifier>();] with the identifier captured, and the
    literal pragma line with no capture. *)
Definition RevertMatch (m : text) (g : Re.caps) : Prop :=
  exists id, is_ident id = true /\ m = str "revert" ++ id ++ str "();"
             /\ g = [(1%nat, id)].

Definition PragmaMatch (m : text) (g : Re.caps) : Prop :=
  m = pragma_old /\ g = [].

Definition MatchOf (s : which) : text -> Re.caps -> Prop :=
  match s with
  | FixRevert => RevertMatch
  | FixSolidityVersion => PragmaMatch
  end.

(** [l in x]: the text [l] occurs in the text [x]. *)
Fixpoint occurs (l x : text) : bool :=
  match Re.strip_prefix l x with
  | Some _ => true
  | None =>
      match x with
      | [] => false
      | _ :: x' => occurs l x'
      end
  end.

(** ** The shape of a trace and of a directory tree *)

(** The accesses of the loop body, file after file: a file is read and
    nothing else, or it is read, written and reported, in this order. *)
Inductive Steps (sc : script) : list event -> Prop :=
| Steps_nil : Steps sc []
| Steps_kept p tr : Steps sc tr -> Steps sc (Read p :: tr)
| Steps_rewritten p data tr :
    Steps sc tr ->
    Steps sc (Read p :: Write p data :: Print (message sc p) :: tr).

(** [FileAt es dirs f]: the listing [es] holds, under the directories
    [dirs] one inside the other, a file named [f]. *)
Inductive FileAt : list dirent -> list text -> text -> Prop :=
| FileAt_here es f : FileEnt f ∈ es -> FileAt es [] f
| FileAt_below es n sub dirs f :
    DirEnt n sub ∈ es -> FileAt sub dirs f -> FileAt es (n :: dirs) f.

(** Induction on directory entries, with the entries of a directory. *)
Fixpoint dirent_ind' (P : dirent -> Prop)
    (Hfile : forall n, P (FileEnt n))
    (Hdir : forall n es, Forall P es -> P (DirEnt n es))
    (e : dirent) : P e :=
  match e with
  | FileEnt n => Hfile n
  | DirEnt n es =>
      Hdir n es
        ((fix all (l : list dirent) : Forall P l :=
            match l with
            | [] => Forall_nil_2 P
            | x :: l' =>
                Forall_cons_2 P x l' (dirent_ind' P Hfile Hdir x) (all l')
            end) es)
  end.

(** The paths that the loops make of the triples of a walk. *)
Definition paths_of (plat : platform)
    (trs : list (text * list text * list text)) : list text :=
  flat_map (fun tr =>
              map (os_path_join plat (fst (fst tr)))
                (filter (fun f => endswith f (str ".sol") = true) (snd tr)))
    trs.

(** The paths below one entry of a directory. *)
Definition below (plat : platform) (e : dirent) : Prop :=
  forall parent p,
    p ∈ paths_of plat (walk_dir plat parent e) <->
    match e with
    | FileEnt _ => False
    | DirEnt n sub =>
        exists dirs f,
          FileAt sub dirs f /\ endswith f (str ".sol") = true
          /\ p = foldl (os_path_join plat) (os_path_join plat parent n)
                   (dirs ++ [f])
    end.

(** ** A small directory to run the scripts on *)

Definition example_tree : option (list dirent) :=
  Some [FileEnt (str "A.sol"); FileEnt (str "X.SOL"); FileEnt (str "X.solx");
        DirEnt (str "lib") [FileEnt (str "B.sol")]].

Definition example_path (s : which) (names : list text) : text :=
  foldl (os_path_join Posix) (top (script_of s)) names.

Definition example_disk (s : which) : gmap text text :=
  list_to_map
    [(example_path s [str "A.sol"],
      str "pragma solidity =0.8.15; revertFoo(); revertBar();");
     (example_path s [str "X.SOL"], str "revertFoo();");
     (example_path s [str "X.solx"], str "pragma solidity =0.8.15;");
     (example_path s [str "lib"; str "B.sol"],
      str "pragma solidity ^0.8.19; revert Ok();")].



(** * Properties *)

(** The lengths of the literals in a goal. *)
Ltac len :=
  repeat rewrite ?length_app, ?length_cons in *;
  repeat match goal with
    | |- context [length (str ?l)] =>
        let n := eval vm_compute in (length (str l)) in
        change (length (str l)) with n
    | H : context [length (str ?l)] |- _ =>
        let n := eval vm_compute in (length (str l)) in
        change (length (str l)) with n in H
    end;
  change (length pragma_old) with 24%nat in *;
  change (length pragma_new) with 24%nat in *.

(** ** The scanning loop, for a pattern that matches no empty text *)

Section Scan.
Variable r : Re.regex.
Variable tpl : Re.template.
Hypothesis nonempty : forall s g, Re.match_at false r s <> Some (O, g).

Lemma match_at_le b s n g :
  Re.match_at b r s = Some (n, g) -> (n <= length s)%nat.
Proof.
  unfold Re.match_at. destruct (Re.run _ _ _ _) as [[s' g']|]; [|done].
  intros [= <- <-]. lia.
Qed.

Lemma sub_from_drop n s :
  (n <= length s)%nat ->
  Re.sub_from r tpl n s = Re.sub_from r tpl 0 (drop n s).
Proof.
  revert n. induction s as [|c s IH]; intros [|n] Hn; simpl in *; try done.
  - lia.
  - apply IH. lia.
Qed.

Lemma sub_nil : Re.sub r tpl [] = [].
Proof.
  unfold Re.sub. simpl.
  destruct (Re.match_at false r []) as [[n g]|] eqn:E; [|done].
  apply match_at_le in E as Hn. simpl in Hn.
  destruct n; [|lia]. by apply nonempty in E.
Qed.

Lemma sub_copy c s :
  Re.match_at false r (c :: s) = None ->
  Re.sub r tpl (c :: s) = c :: Re.sub r tpl s.
Proof. unfold Re.sub. simpl. by intros ->. Qed.

Lemma sub_match s n g :
  Re.match_at false r s = Some (n, g) ->
  Re.sub r tpl s = Re.expand tpl g ++ Re.sub r tpl (drop n s).
Proof.
  intros E. apply match_at_le in E as Hn.
  destruct n as [|n]; [by apply nonempty in E|].
  destruct s as [|c s]; simpl in Hn; [lia|].
  unfold Re.sub. simpl. rewrite E. f_equal.
  apply sub_from_drop. lia.
Qed.

Lemma findall_from_drop n s :
  (n <= length s)%nat ->
  Re.findall_from r n s = Re.findall_from r 0 (drop n s).
Proof.
  revert n. induction s as [|c s IH]; intros [|n] Hn; simpl in *; try done.
  - lia.
  - apply IH. lia.
Qed.

Lemma findall_nil : Re.findall r [] = [].
Proof.
  unfold Re.findall. simpl.
  destruct (Re.match_at false r []) as [[n g]|] eqn:E; [|done].
  apply match_at_le in E as Hn. simpl in Hn.
  destruct n; [|lia]. by apply nonempty in E.
Qed.

Lemma findall_copy c s :
  Re.match_at false r (c :: s) = None ->
  Re.findall r (c :: s) = Re.findall r s.
Proof. unfold Re.findall. simpl. by intros ->. Qed.

Lemma findall_match s n g :
  Re.match_at false r s = Some (n, g) ->
  Re.findall r s = g :: Re.findall r (drop n s).
Proof.
  intros E. apply match_at_le in E as Hn.
  destruct n as [|n]; [by apply nonempty in E|].
  destruct s as [|c s]; simpl in Hn; [lia|].
  unfold Re.findall. simpl. rewrite E. f_equal.
  apply findall_from_drop. lia.
Qed.

Lemma search_nil : Re.search r [] = false.
Proof.
  simpl. destruct (Re.match_at false r []) as [[n g]|] eqn:E; [|done].
  apply match_at_le in E as Hn. simpl in Hn.
  destruct n; [|lia]. by apply nonempty in E.
Qed.

Lemma search_cons c s :
  Re.search r (c :: s) =
  match Re.match_at false r (c :: s) with
  | Some _ => true
  | None => Re.search r s
  end.
Proof. done. Qed.

Lemma search_cons_match s n g :
  Re.match_at false r s = Some (n, g) -> Re.search r s = true.
Proof. destruct s; simpl; by intros ->. Qed.

End Scan.

(** ** What the two patterns match *)

Lemma strip_prefix_Some p s s' :
  Re.strip_prefix p s = Some s' <-> s = p ++ s'.
Proof.
  revert s. induction p as [|a p IH]; intros s; simpl.
  - split; [by intros [= ->]|by intros ->].
  - destruct s as [|b s]; [done|].
    destruct (N.eqb_spec a b) as [->|Hab].
    + rewrite IH. split; [by intros ->|by intros [= ->]].
    + split; [done|]. intros [= -> _]. done.
Qed.

Lemma strip_prefix_app p s : Re.strip_prefix p (p ++ s) = Some s.
Proof. by apply strip_prefix_Some. Qed.

Lemma strip_prefix_None p s :
  Re.strip_prefix p s = None <-> ~ p `prefix_of` s.
Proof.
  split.
  - intros E [k ->]. by rewrite strip_prefix_app in E.
  - intros Hn. destruct (Re.strip_prefix p s) as [s'|] eqn:E; [|done].
    apply strip_prefix_Some in E as ->. destruct Hn. by exists s'.
Qed.

Lemma take_drop_class cls s : take_class cls s ++ drop_class cls s = s.
Proof.
  induction s as [|c s IH]; simpl; [done|].
  destruct (Re.in_class c cls); simpl; [by rewrite IH|done].
Qed.

Lemma take_length_take_class cls s :
  take (length (take_class cls s)) s = take_class cls s.
Proof.
  induction s as [|c s IH]; simpl; [done|].
  destruct (Re.in_class c cls); simpl; [by rewrite IH|done].
Qed.

Lemma take_class_Forall cls s :
  Forall (fun c => Re.in_class c cls = true) (take_class cls s).
Proof.
  induction s as [|c s IH]; simpl; [constructor|].
  destruct (Re.in_class c cls) eqn:E; by constructor.
Qed.

Lemma drop_class_head cls s c s' :
  drop_class cls s = c :: s' -> Re.in_class c cls = false.
Proof.
  induction s as [|d s IH]; simpl; [done|].
  destruct (Re.in_class d cls) eqn:E; [done|]. by intros [= <- _].
Qed.

Lemma take_class_app cls a s :
  Forall (fun c => Re.in_class c cls = true) a ->
  take_class cls (a ++ s) = a ++ take_class cls s.
Proof.
  induction 1 as [|c a Hc _ IH]; simpl; [done|]. by rewrite Hc, IH.
Qed.

Lemma drop_class_app cls a s :
  Forall (fun c => Re.in_class c cls = true) a ->
  drop_class cls (a ++ s) = drop_class cls s.
Proof.
  induction 1 as [|c a Hc _ IH]; simpl; [done|]. by rewrite Hc.
Qed.

(** The greedy loop over a class takes the whole run of class characters,
    when what follows the loop cannot start with one of them: giving
    characters back never helps. *)
Lemma star_class cls (k : Re.cont) fuel s g :
  (forall c s' g', Re.in_class c cls = true -> k (c :: s') g' = None) ->
  (length s <= fuel)%nat ->
  Re.star_loop (Re.run (Re.Cls cls)) fuel s g k = k (drop_class cls s) g.
Proof.
  intros Hk. revert s. induction fuel as [|fuel IH]; intros s Hlen.
  - destruct s; simpl in *; [done|lia].
  - destruct s as [|c s]; simpl; [done|].
    destruct (Re.in_class c cls) eqn:Hc; [|done].
    assert ((length s <? S (length s))%nat = true) as ->
      by (apply Nat.ltb_lt; lia).
    rewrite IH by (simpl in Hlen; lia).
    destruct (k (drop_class cls s) g) eqn:E; [done|].
    by apply Hk.
Qed.

Lemma run_star_class cls (k : Re.cont) s g :
  (forall c s' g', Re.in_class c cls = true -> k (c :: s') g' = None) ->
  Re.run (Re.Star (Re.Cls cls)) s g k = k (drop_class cls s) g.
Proof. intros Hk. simpl. by apply star_class. Qed.

Lemma run_Cat r1 r2 s g k :
  Re.run (Re.Cat r1 r2) s g k
  = Re.run r1 s g (fun s' g' => Re.run r2 s' g' k).
Proof. done. Qed.

Lemma run_Group n r s g k :
  Re.run (Re.Group n r) s g k
  = Re.run r s g
      (fun s' g' => k s' ((n, take (length s - length s') s) :: g')).
Proof. done. Qed.

Lemma run_Str l s g k :
  Re.run (Re.Str l) s g k
  = match Re.strip_prefix l s with Some s' => k s' g | None => None end.
Proof. done. Qed.

Lemma run_Cls cls c s g k :
  Re.run (Re.Cls cls) (c :: s) g k
  = if Re.in_class c cls then k s g else None.
Proof. done. Qed.

Lemma revert_match_at b s :
  Re.match_at b pattern s =
  match revert_at s with
  | Some (g, rest) => Some ((length s - length rest)%nat, [(1%nat, g)])
  | None => None
  end.
Proof.
  unfold Re.match_at, revert_at, pattern.
  rewrite run_Cat, run_Str.
  destruct (Re.strip_prefix (str "revert") s) as [s0|] eqn:E0; [|done].
  apply strip_prefix_Some in E0 as ->.
  rewrite run_Cat, run_Group, run_Cat.
  destruct s0 as [|c s1]; [done|].
  rewrite run_Cls.
  destruct (Re.in_class c upper) eqn:Hc; [|done].
  rewrite run_star_class; [|intros d s' g' Hd; rewrite run_Str].
  - rewrite run_Str. destruct (Re.strip_prefix (str "();") (drop_class alnum s1))
      as [rest|] eqn:E1; [|done].
    apply strip_prefix_Some in E1.
    pose proof (take_drop_class alnum s1) as Hs1. rewrite E1 in Hs1.
    assert (length s1 = length (take_class alnum s1) + 3 + length rest)%nat
      as Hlen.
    { rewrite <- Hs1 at 1. rewrite !length_app. simpl. lia. }
    replace (b && _) with false.
    2:{ symmetry. apply andb_false_iff. right. apply Nat.eqb_neq.
        rewrite length_app. simpl. lia. }
    do 4 f_equal. rewrite E1, length_app.
    replace (length (c :: s1) - _)%nat
      with (S (length (take_class alnum s1))) by (simpl; lia).
    simpl. f_equal. apply take_length_take_class.
  - destruct (Re.strip_prefix (str "();") (d :: s')) as [t|] eqn:E; [|done].
    apply strip_prefix_Some in E.
    change (d :: s' = 40 :: 41 :: 59 :: t) in E.
    injection E as -> _. by vm_compute in Hd.
Qed.

Lemma pragma_match_at b s :
  Re.match_at b pragma_pattern s =
  match Re.strip_prefix pragma_old s with
  | Some _ => Some (24%nat, [])
  | None => None
  end.
Proof.
  unfold Re.match_at, pragma_pattern. cbn [Re.run].
  destruct (Re.strip_prefix pragma_old s) as [s'|] eqn:E; [|done].
  apply strip_prefix_Some in E as ->.
  rewrite length_app.
  replace (b && _) with false.
  2:{ symmetry. apply andb_false_iff. right. apply Nat.eqb_neq.
      change (length pragma_old) with 24%nat. lia. }
  do 2 f_equal. change (length pragma_old) with 24%nat. lia.
Qed.

(** The matches of [pattern] are the texts [revert<Ident>();]. *)
Lemma forallb_alnum a :
  forallb (fun d => Re.in_class d alnum) a = true <->
  Forall (fun d => Re.in_class d alnum = true) a.
Proof.
  rewrite forallb_forall, Forall_forall.
  split; intros H x Hx; apply H; by apply list_elem_of_In.
Qed.

Lemma revert_at_Some s g rest :
  revert_at s = Some (g, rest) <->
  is_ident g = true /\ s = str "revert" ++ g ++ str "();" ++ rest.
Proof.
  unfold revert_at. split.
  - destruct (Re.strip_prefix (str "revert") s) as [[|c s1]|] eqn:E0;
      [done| |done].
    apply strip_prefix_Some in E0 as ->.
    destruct (Re.in_class c upper) eqn:Hc; [|done].
    destruct (Re.strip_prefix _ (drop_class alnum s1)) as [t|] eqn:E1;
      [|done].
    apply strip_prefix_Some in E1. intros [= <- <-]. split.
    + cbn [is_ident]. rewrite Hc. apply forallb_alnum, take_class_Forall.
    + do 2 f_equal. rewrite <- E1. simpl. f_equal.
      by rewrite take_drop_class.
  - intros [Hg ->]. destruct g as [|c a]; [done|]. cbn [is_ident] in Hg.
    apply andb_true_iff in Hg as [Hc Ha]. apply forallb_alnum in Ha.
    rewrite strip_prefix_app, <- app_comm_cons. cbv beta iota. rewrite Hc.
    rewrite drop_class_app, take_class_app by done.
    change (drop_class alnum (str "();" ++ rest)) with (str "();" ++ rest).
    change (take_class alnum (str "();" ++ rest)) with (@nil N).
    by rewrite strip_prefix_app, app_nil_r.
Qed.

Lemma revert_nonempty s g : Re.match_at false pattern s <> Some (O, g).
Proof.
  rewrite revert_match_at.
  destruct (revert_at s) as [[g' rest]|] eqn:E; [|done].
  apply revert_at_Some in E as [_ ->]. intros [= H _].
  rewrite !length_app in H. simpl in H. lia.
Qed.

Lemma pragma_nonempty s g :
  Re.match_at false pragma_pattern s <> Some (O, g).
Proof. rewrite pragma_match_at. by destruct (Re.strip_prefix _ _). Qed.

(** ** The equations of the two rewrites *)

Lemma fix_revert_nil : fix_revert [] = [].
Proof. apply sub_nil, revert_nonempty. Qed.

Lemma fix_revert_copy c s :
  revert_at (c :: s) = None -> fix_revert (c :: s) = c :: fix_revert s.
Proof.
  intros E. apply sub_copy. by rewrite revert_match_at, E.
Qed.

Lemma fix_revert_match g rest :
  is_ident g = true ->
  fix_revert (str "revert" ++ g ++ str "();" ++ rest)
  = str "revert " ++ g ++ str "();" ++ fix_revert rest.
Proof.
  intros Hg. unfold fix_revert.
  assert (revert_at (str "revert" ++ g ++ str "();" ++ rest)
          = Some (g, rest)) as E by by apply revert_at_Some.
  erewrite sub_match; [|apply revert_nonempty|by rewrite revert_match_at, E].
  unfold revert_repl. cbn [Re.expand flat_map Re.group Nat.eqb].
  rewrite app_nil_r, <- !app_assoc. do 3 f_equal.
  replace (length _ - length rest)%nat
    with (length (str "revert" ++ g ++ str "();"))
    by (rewrite !length_app; lia).
  by rewrite (app_assoc _ _ rest), (app_assoc _ _ rest), drop_app_length.
Qed.

Lemma fix_pragma_nil : fix_pragma [] = [].
Proof. apply sub_nil, pragma_nonempty. Qed.

Lemma fix_pragma_copy c s :
  Re.strip_prefix pragma_old (c :: s) = None ->
  fix_pragma (c :: s) = c :: fix_pragma s.
Proof.
  intros E. apply sub_copy. by rewrite pragma_match_at, E.
Qed.

Lemma fix_pragma_match rest :
  fix_pragma (pragma_old ++ rest) = pragma_new ++ fix_pragma rest.
Proof.
  unfold fix_pragma.
  erewrite sub_match;
    [|apply pragma_nonempty
     |by rewrite pragma_match_at, strip_prefix_app].
  unfold pragma_repl. cbn [Re.expand flat_map]. rewrite app_nil_r.
  by rewrite (drop_app_length pragma_old).
Qed.

(** Induction along the scan of a text by each rule. *)
Lemma revert_scan_ind (P : text -> Prop) :
  P [] ->
  (forall c s, revert_at (c :: s) = None -> P s -> P (c :: s)) ->
  (forall g rest, is_ident g = true -> P rest ->
     P (str "revert" ++ g ++ str "();" ++ rest)) ->
  forall s, P s.
Proof.
  intros Hnil Hcopy Hmatch s.
  remember (length s) as n eqn:Hn. revert s Hn.
  induction n as [n IH] using lt_wf_ind. intros s ->.
  destruct s as [|c s]; [done|].
  destruct (revert_at (c :: s)) as [[g rest]|] eqn:E.
  - apply revert_at_Some in E as [Hg E]. rewrite E.
    apply Hmatch; [done|]. eapply IH; [|done]. rewrite E. len. lia.
  - apply Hcopy; [done|]. eapply IH; [|done]. simpl. lia.
Qed.

Lemma pragma_scan_ind (P : text -> Prop) :
  P [] ->
  (forall c s, Re.strip_prefix pragma_old (c :: s) = None -> P s ->
     P (c :: s)) ->
  (forall rest, P rest -> P (pragma_old ++ rest)) ->
  forall s, P s.
Proof.
  intros Hnil Hcopy Hmatch s.
  remember (length s) as n eqn:Hn. revert s Hn.
  induction n as [n IH] using lt_wf_ind. intros s ->.
  destruct s as [|c s]; [done|].
  destruct (Re.strip_prefix pragma_old (c :: s)) as [rest|] eqn:E.
  - apply strip_prefix_Some in E. rewrite E.
    apply Hmatch. eapply IH; [|done]. rewrite E. len. lia.
  - apply Hcopy; [done|]. eapply IH; [|done]. simpl. lia.
Qed.

(** ** The pragma rule *)

(** The old pragma overlaps neither itself nor the new one: its first
    character occurs nowhere else in either. *)
Lemma pragma_no_overlap_old j t :
  (1 <= j < 24)%nat ->
  Re.strip_prefix (drop j pragma_old) (pragma_old ++ t) = None.
Proof.
  intros Hj. do 24 (destruct j as [|j]; [try lia; reflexivity|]). lia.
Qed.

Lemma pragma_no_overlap_new j t :
  (j < 24)%nat ->
  Re.strip_prefix (drop j pragma_old) (pragma_new ++ t) = None.
Proof.
  intros Hj. do 24 (destruct j as [|j]; [reflexivity|]). lia.
Qed.

Lemma drop_S_cons {A} k (l : list A) d l' :
  drop k l = d :: l' -> drop (S k) l = l'.
Proof.
  intros E. replace (S k) with (k + 1)%nat by lia.
  by rewrite <- drop_drop, E.
Qed.

Lemma fix_pragma_new t :
  fix_pragma (pragma_new ++ t) = pragma_new ++ fix_pragma t.
Proof.
  let l := eval vm_compute in pragma_new in change pragma_new with l.
  cbn [app]. by rewrite !fix_pragma_copy by reflexivity.
Qed.

(** Whatever part of the old pragma starts the rewritten text started
    the text itself: the rewrite creates no occurrence. *)
Lemma pragma_prefix_sub s k :
  drop k pragma_old `prefix_of` fix_pragma s ->
  drop k pragma_old `prefix_of` s.
Proof.
  revert k. induction s as [|c s E IH|rest IH] using pragma_scan_ind;
    intros k.
  - by rewrite fix_pragma_nil.
  - rewrite fix_pragma_copy by done.
    destruct (drop k pragma_old) as [|d l] eqn:Ek; [intros; apply prefix_nil|].
    intros Hp. pose proof (prefix_cons_inv_1 _ _ _ _ Hp) as ->.
    apply prefix_cons_inv_2 in Hp. apply prefix_cons.
    apply drop_S_cons in Ek as <-. by apply IH.
  - rewrite fix_pragma_match. intros Hp.
    destruct (decide (k < 24)%nat) as [Hk|Hk].
    + apply strip_prefix_None in Hp; [done|].
      by apply pragma_no_overlap_new.
    + rewrite drop_ge by (len; lia). apply prefix_nil.
Qed.

Lemma fix_pragma_idempotent x : fix_pragma (fix_pragma x) = fix_pragma x.
Proof.
  induction x as [|c s E IH|rest IH] using pragma_scan_ind.
  - by rewrite !fix_pragma_nil.
  - rewrite (fix_pragma_copy c s) by done.
    rewrite fix_pragma_copy; [by rewrite IH|].
    apply strip_prefix_None. intros Hp.
    apply strip_prefix_None in E as E'. apply E'.
    apply (pragma_prefix_sub _ 0). by rewrite fix_pragma_copy.
  - by rewrite fix_pragma_match, fix_pragma_new, IH.
Qed.

(** Every occurrence of the old pragma is replaced, whatever is around. *)
Lemma fix_pragma_app (u v : text) :
  fix_pragma (u ++ pragma_old ++ v)
  = fix_pragma u ++ pragma_new ++ fix_pragma v.
Proof.
  induction u as [|c s E IH|rest IH] using pragma_scan_ind.
  - by rewrite app_nil_l, fix_pragma_nil, fix_pragma_match.
  - rewrite (fix_pragma_copy c s) by done.
    rewrite <- !app_comm_cons, fix_pragma_copy; [by rewrite IH|].
    destruct (Re.strip_prefix pragma_old (c :: s ++ pragma_old ++ v))
      as [t|] eqn:E2; [exfalso|done].
    apply strip_prefix_Some in E2.
    apply strip_prefix_None in E.
    destruct (decide (24 <= length (c :: s))%nat) as [Hl|Hl].
    + apply E. exists (drop 24 (c :: s)).
      rewrite <- (take_drop 24 (c :: s)) at 1. f_equal.
      rewrite app_comm_cons in E2.
      apply (f_equal (take 24)) in E2.
      rewrite take_app_le in E2 by done.
      by rewrite (take_app_length pragma_old) in E2.
    + rewrite app_comm_cons in E2.
      pose proof (f_equal (drop (length (c :: s))) E2) as E3.
      rewrite drop_app_length in E3.
      rewrite <- (take_drop (length (c :: s)) pragma_old) in E3 at 2.
      rewrite <- app_assoc, drop_app_length' in E3.
      2:{ rewrite length_take. len. simpl in *. lia. }
      assert (Re.strip_prefix (drop (length (c :: s)) pragma_old)
                (pragma_old ++ v) = None) as E4
        by (apply pragma_no_overlap_old; simpl in *; lia).
      apply strip_prefix_None in E4. apply E4. exists t. by rewrite E3.
  - rewrite <- app_assoc, !fix_pragma_match, IH. by rewrite <- app_assoc.
Qed.

(** Searching, for the literal pattern: some occurrence. *)
Lemma pragma_search (s : text) :
  Re.search pragma_pattern s = true <-> exists u v, s = u ++ pragma_old ++ v.
Proof.
  induction s as [|c s IH].
  - rewrite search_nil by apply pragma_nonempty. split; [done|].
    intros (u & v & E). apply (f_equal length) in E. len. simpl in E. lia.
  - rewrite search_cons, pragma_match_at.
    destruct (Re.strip_prefix pragma_old (c :: s)) as [t|] eqn:E.
    + apply strip_prefix_Some in E. split; [|done]. intros _.
      exists [], t. by rewrite E.
    + rewrite IH. split.
      * intros (u & v & ->). by exists (c :: u), v.
      * intros ([|d u] & v & E2).
        -- simpl in E2. apply strip_prefix_None in E. destruct E.
           exists v. by rewrite E2.
        -- injection E2 as -> ->. by exists u, v.
Qed.

Lemma fix_pragma_unchanged (s : text) :
  Re.search pragma_pattern s = false <-> fix_pragma s = s.
Proof.
  induction s as [|c s E IH|rest IH] using pragma_scan_ind.
  - by rewrite search_nil, fix_pragma_nil by apply pragma_nonempty.
  - rewrite search_cons, pragma_match_at, E, fix_pragma_copy by done.
    rewrite IH. split; [by intros ->|by intros [= ->]].
  - erewrite search_cons_match, fix_pragma_match.
    2:{ by rewrite pragma_match_at, strip_prefix_app. }
    split; [done|]. intros E. exfalso.
    assert (Re.strip_prefix pragma_old (pragma_new ++ fix_pragma rest)
            = None) as E2 by (apply (pragma_no_overlap_new 0); lia).
    apply strip_prefix_None in E2. apply E2. rewrite E. by eexists.
Qed.

Lemma fix_pragma_clean s : Re.search pragma_pattern (fix_pragma s) = false.
Proof. apply fix_pragma_unchanged, fix_pragma_idempotent. Qed.

(** ** The revert rule *)

Lemma captured_nil : captured [] = [].
Proof. unfold captured. by rewrite findall_nil by apply revert_nonempty. Qed.

Lemma captured_copy c s :
  revert_at (c :: s) = None -> captured (c :: s) = captured s.
Proof.
  intros E. unfold captured. rewrite findall_copy; [done|].
  by rewrite revert_match_at, E.
Qed.

Lemma captured_match g rest :
  is_ident g = true ->
  captured (str "revert" ++ g ++ str "();" ++ rest) = g :: captured rest.
Proof.
  intros Hg. unfold captured.
  assert (revert_at (str "revert" ++ g ++ str "();" ++ rest)
          = Some (g, rest)) as E by by apply revert_at_Some.
  erewrite findall_match; [|apply revert_nonempty|by rewrite revert_match_at, E].
  cbn [map Re.group Nat.eqb]. do 2 f_equal.
  replace (length _ - length rest)%nat
    with (length (str "revert" ++ g ++ str "();"))
    by (rewrite !length_app; lia).
  by rewrite (app_assoc _ _ rest), (app_assoc _ _ rest), drop_app_length.
Qed.

Lemma upper_alnum c :
  Re.in_class c upper = true -> Re.in_class c alnum = true.
Proof.
  unfold Re.in_class, upper, alnum. cbn [existsb fst snd].
  intros ->%orb_true_iff%proj1 || (rewrite !orb_false_r; intros ->).
  all: by rewrite ?orb_true_r.
Qed.

Lemma is_ident_alnum g :
  is_ident g = true -> Forall (fun d => Re.in_class d alnum = true) g.
Proof.
  destruct g as [|c a]; [done|]. cbn [is_ident].
  intros [Hc Ha]%andb_true_iff. constructor; [by apply upper_alnum|].
  by apply forallb_alnum.
Qed.

Lemma revert_word_alnum g :
  is_ident g = true ->
  Forall (fun d => Re.in_class d alnum = true) (str "revert" ++ g).
Proof.
  intros Hg. apply Forall_app. split; [|by apply is_ident_alnum].
  by repeat constructor.
Qed.

(** A run of letters and digits before an opening parenthesis is
    determined by the text. *)
Lemma alnum_run_unique a b x y :
  Forall (fun d => Re.in_class d alnum = true) a ->
  Forall (fun d => Re.in_class d alnum = true) b ->
  a ++ 40 :: x = b ++ 40 :: y -> a = b /\ x = y.
Proof.
  intros Ha Hb E.
  assert (a = b) as ->.
  { apply (f_equal (take_class alnum)) in E.
    rewrite !take_class_app in E by done.
    change (take_class alnum (40 :: x)) with (@nil N) in E.
    change (take_class alnum (40 :: y)) with (@nil N) in E.
    by rewrite !app_nil_r in E. }
  split; [done|]. apply app_inv_head in E. by injection E.
Qed.

(** After a run of letters and digits closed by "();", a match at the
    start is the run itself: it does not depend on what follows. *)
Lemma revert_at_run a t g rest :
  Forall (fun d => Re.in_class d alnum = true) a ->
  revert_at (a ++ str "();" ++ t) = Some (g, rest) <->
  is_ident g = true /\ a = str "revert" ++ g /\ rest = t.
Proof.
  intros Ha. rewrite revert_at_Some. split.
  - intros [Hg E]. split; [done|].
    rewrite (app_assoc (str "revert")) in E.
    change (str "();" ++ t) with (40 :: 41 :: 59 :: t) in E.
    change (str "();" ++ rest) with (40 :: 41 :: 59 :: rest) in E.
    apply alnum_run_unique in E as [-> E]; [|done|by apply revert_word_alnum].
    by injection E.
  - intros (Hg & -> & ->). by rewrite <- app_assoc.
Qed.

Lemma revert_at_run_None a t t' :
  Forall (fun d => Re.in_class d alnum = true) a ->
  revert_at (a ++ str "();" ++ t) = None ->
  revert_at (a ++ str "();" ++ t') = None.
Proof.
  intros Ha E.
  destruct (revert_at (a ++ str "();" ++ t')) as [[g rest]|] eqn:E'; [|done].
  apply revert_at_run in E' as (Hg & -> & ->); [|done].
  assert (revert_at ((str "revert" ++ g) ++ str "();" ++ t) = Some (g, t))
    as E2 by (by apply revert_at_run).
  congruence.
Qed.

(** A match does not depend on what follows it. *)
Lemma revert_at_app s t g rest :
  revert_at s = Some (g, rest) -> revert_at (s ++ t) = Some (g, rest ++ t).
Proof.
  rewrite !revert_at_Some. intros [Hg ->]. by rewrite <- !app_assoc.
Qed.

Lemma revert_search_app_r s t :
  Re.search pattern s = true -> Re.search pattern (s ++ t) = true.
Proof.
  induction s as [|c s IH].
  - by rewrite search_nil by apply revert_nonempty.
  - rewrite <- app_comm_cons, !search_cons, !revert_match_at.
    destruct (revert_at (c :: s)) as [[g rest]|] eqn:E.
    + apply (revert_at_app _ t) in E.
      rewrite <- app_comm_cons in E. by rewrite E.
    + intros H. by destruct (revert_at (c :: s ++ t)) as [[??]|]; [|apply IH].
Qed.

(** The text the rule has written is left alone by a second pass, up to
    the identifier. *)
Lemma fix_revert_spaced t :
  fix_revert (str "revert " ++ t) = str "revert " ++ fix_revert t.
Proof.
  change (str "revert " ++ t)
    with (114 :: 101 :: 118 :: 101 :: 114 :: 116 :: 32 :: t).
  by rewrite !fix_revert_copy by reflexivity.
Qed.

Lemma fix_revert_call t :
  fix_revert (str "();" ++ t) = str "();" ++ fix_revert t.
Proof.
  change (str "();" ++ t) with (40 :: 41 :: 59 :: t).
  by rewrite !fix_revert_copy by reflexivity.
Qed.

(** A run of letters and digits that holds no match is copied. *)
Lemma fix_revert_run a t :
  Forall (fun d => Re.in_class d alnum = true) a ->
  Re.search pattern (a ++ str "();") = false ->
  fix_revert (a ++ str "();" ++ t) = a ++ str "();" ++ fix_revert t.
Proof.
  induction 1 as [|d a Hd Ha IH]; intros Hs.
  - by rewrite !app_nil_l, fix_revert_call.
  - rewrite <- app_comm_cons, search_cons, revert_match_at in Hs.
    destruct (revert_at (d :: a ++ str "();")) as [[??]|] eqn:E; [done|].
    rewrite <- !app_comm_cons, fix_revert_copy; [by rewrite IH|].
    apply (revert_at_run_None (d :: a) []); [by constructor|].
    by rewrite app_nil_r.
Qed.

(** A match holds no space and ends with a semicolon. *)
Lemma revert_word_no_space g :
  is_ident g = true ->
  Forall (fun d => d <> 32) (str "revert" ++ g ++ str "();").
Proof.
  intros Hg. rewrite app_assoc. apply Forall_app. split.
  - eapply Forall_impl; [by apply revert_word_alnum|].
    intros d Hd ->. by vm_compute in Hd.
  - by repeat constructor.
Qed.

Lemma last_drop_snoc {A} k (l : list A) x :
  (k <= length l)%nat -> last (drop k (l ++ [x])) = Some x.
Proof. intros Hk. by rewrite drop_app_le, last_snoc by done. Qed.

(** No part of a match that ends it starts the text the rule writes. *)
Lemma revert_suffix_not_spaced g k t :
  is_ident g = true ->
  (k < length (str "revert" ++ g ++ str "();"))%nat ->
  ~ drop k (str "revert" ++ g ++ str "();") `prefix_of` str "revert " ++ t.
Proof.
  intros Hg Hk [y E].
  pose proof (revert_word_no_space g Hg) as Hsp.
  apply (Forall_drop _ k) in Hsp.
  assert (last (drop k (str "revert" ++ g ++ str "();")) = Some 59) as Hl.
  { change (str "();") with ([40; 41] ++ [59]). rewrite !app_assoc.
    apply last_drop_snoc. revert Hk. len. simpl. lia. }
  destruct (drop k (str "revert" ++ g ++ str "();")) as [|d0 d] eqn:Ed.
  { done. }
  clear Ed Hk.
  change (str "revert " ++ t)
    with (114 :: 101 :: 118 :: 101 :: 114 :: 116 :: 32 :: t) in E.
  simpl in E. injection E as <- E.
  do 5 (destruct d as [|? d]; [discriminate Hl|];
        simpl in E; injection E as <- E).
  destruct d as [|? d]; [discriminate Hl|].
  simpl in E. injection E as <- E.
  by apply (Forall_lookup_1 _ _ 6%nat 32) in Hsp.
Qed.

(** Whatever end of a match starts the rewritten text started the text
    itself: the rewrite creates no match outside the identifiers. *)
Lemma revert_prefix_sub g s k :
  is_ident g = true ->
  drop k (str "revert" ++ g ++ str "();") `prefix_of` fix_revert s ->
  drop k (str "revert" ++ g ++ str "();") `prefix_of` s.
Proof.
  intros Hg. revert k.
  induction s as [|c s E IH|g' rest Hg' IH] using revert_scan_ind; intros k.
  - by rewrite fix_revert_nil.
  - rewrite fix_revert_copy by done.
    destruct (drop k _) as [|d l] eqn:Ek; [intros; apply prefix_nil|].
    intros Hp. pose proof (prefix_cons_inv_1 _ _ _ _ Hp) as ->.
    apply prefix_cons_inv_2 in Hp. apply prefix_cons.
    apply drop_S_cons in Ek as <-. by apply IH.
  - rewrite fix_revert_match by done. intros Hp.
    destruct (decide (k < length (str "revert" ++ g ++ str "();"))%nat)
      as [Hk|Hk].
    + by apply revert_suffix_not_spaced in Hp.
    + rewrite drop_ge by lia. apply prefix_nil.
Qed.

Lemma revert_at_sub c s :
  revert_at (c :: s) = None -> revert_at (c :: fix_revert s) = None.
Proof.
  intros E.
  destruct (revert_at (c :: fix_revert s)) as [[g rest]|] eqn:E2; [|done].
  apply revert_at_Some in E2 as [Hg E2].
  assert (drop 0 (str "revert" ++ g ++ str "();") `prefix_of` c :: s)
    as [y Hy].
  { apply revert_prefix_sub; [done|]. rewrite fix_revert_copy by done.
    exists rest. rewrite E2, drop_0. by rewrite <- !app_assoc. }
  assert (revert_at (c :: s) = Some (g, y)); [|congruence].
  apply revert_at_Some. split; [done|]. rewrite Hy, drop_0.
  by rewrite <- !app_assoc.
Qed.

(** The rule changes a text exactly when the pattern occurs in it. *)
Lemma fix_revert_unchanged (s : text) :
  Re.search pattern s = false <-> fix_revert s = s.
Proof.
  induction s as [|c s E IH|g rest Hg IH] using revert_scan_ind.
  - by rewrite search_nil, fix_revert_nil by apply revert_nonempty.
  - rewrite search_cons, revert_match_at, E, fix_revert_copy by done.
    rewrite IH. split; [by intros ->|by intros [= ?]].
  - rewrite fix_revert_match by done.
    assert (Re.search pattern (str "revert" ++ g ++ str "();" ++ rest)
            = true) as ->.
    { eapply search_cons_match. rewrite revert_match_at.
      by rewrite (proj2 (revert_at_Some _ g rest)). }
    split; [done|]. intros E. exfalso.
    destruct g as [|c a]; [done|]. cbn [is_ident] in Hg.
    apply andb_true_iff in Hg as [Hc _].
    change (str "revert " ++ ?t)
      with (114 :: 101 :: 118 :: 101 :: 114 :: 116 :: 32 :: t) in E.
    change (str "revert" ++ ?t)
      with (114 :: 101 :: 118 :: 101 :: 114 :: 116 :: t) in E.
    injection E as <- _. by vm_compute in Hc.
Qed.

(** A second pass changes nothing exactly when no identifier moved by
    the first pass holds a match of its own. *)
Lemma fix_revert_twice (x : text) :
  fix_revert (fix_revert x) = fix_revert x <->
  Forall (fun g => Re.search pattern (g ++ str "();") = false) (captured x).
Proof.
  induction x as [|c s E IH|g rest Hg IH] using revert_scan_ind.
  - rewrite captured_nil, !fix_revert_nil. by split.
  - rewrite (fix_revert_copy c s), captured_copy by done.
    rewrite fix_revert_copy by by apply revert_at_sub.
    rewrite <- IH. split; [by intros [= ?]|by intros ->].
  - rewrite fix_revert_match, captured_match, Forall_cons by done.
    rewrite fix_revert_spaced.
    destruct (Re.search pattern (g ++ str "();")) eqn:Hs.
    + split; [|by intros [? _]]. intros E. exfalso.
      apply app_inv_head in E. apply fix_revert_unchanged in E.
      apply (revert_search_app_r _ (fix_revert rest)) in Hs.
      rewrite <- app_assoc in Hs. congruence.
    + rewrite fix_revert_run by (by try apply is_ident_alnum).
      rewrite <- IH. split.
      * intros E. split; [done|]. by do 3 apply app_inv_head in E.
      * by intros [_ ->].
Qed.

(** ** The loops *)

Lemma for_each_app {A} (body : A -> world -> outcome * world) l1 l2 w :
  for_each body (l1 ++ l2) w =
  match for_each body l1 w with
  | (Completed, w') => for_each body l2 w'
  | (Raised, w') => (Raised, w')
  end.
Proof.
  revert w. induction l1 as [|x l1 IH]; intros w; simpl; [done|].
  destruct (body x w) as [[] w']; [apply IH|done].
Qed.

Section Loops.
Variable plat : platform.
Variable sc : script.
Variable faults : gmap text fault.

(** The body of the loops on one path. *)
Lemma process_eq_with p w :
  process plat sc faults p w =
  match disk w !! p with
  | None => (Raised, log (Read p) w)
  | Some raw =>
      if changes sc raw then
        match faults !! p with
        | None =>
            let data := write_newlines plat (new_text sc raw) in
            (Completed,
             World (tree w) (<[p := data]> (disk w))
               (trace w ++ [Read p; Write p data; Print (message sc p)]))
        | Some Refused => (Raised, log (Read p) w)
        | Some (Broken remains) =>
            (Raised,
             World (tree w) (<[p := remains]> (disk w))
               (trace w ++ [Read p; Write p remains]))
        end
      else (Completed, log (Read p) w)
  end.
Proof.
  unfold process, read_file.
  destruct (disk w !! p) as [raw|]; simpl; [|done].
  unfold changes, new_text. destruct (bool_decide _); [|done].
  unfold write_file. destruct (faults !! p) as [[|remains]|]; [done| |].
  - unfold log. simpl. by rewrite <- !app_assoc.
  - unfold print, log. simpl. by rewrite <- !app_assoc.
Qed.

(** The same when no write fails. *)
Lemma process_eq p w :
  process plat sc ∅ p w =
  match disk w !! p with
  | None => (Raised, log (Read p) w)
  | Some raw =>
      if changes sc raw then
        let data := write_newlines plat (new_text sc raw) in
        (Completed,
         World (tree w) (<[p := data]> (disk w))
           (trace w ++ [Read p; Write p data; Print (message sc p)]))
      else (Completed, log (Read p) w)
  end.
Proof.
  unfold process, read_file.
  destruct (disk w !! p) as [raw|]; simpl; [|done].
  unfold changes, new_text. destruct (bool_decide _); [|done].
  unfold print, write_file, log. rewrite lookup_empty. simpl.
  by rewrite <- !app_assoc.
Qed.

Lemma for_each_visit root files w :
  for_each (visit plat sc faults root) files w =
  for_each (process plat sc faults)
    (map (os_path_join plat root)
       (filter (fun f => endswith f (str ".sol") = true) files)) w.
Proof.
  revert w. induction files as [|f files IH]; intros w; [done|].
  rewrite filter_cons. simpl. unfold visit at 1.
  destruct (endswith f (str ".sol")) eqn:E.
  - rewrite decide_True by done. simpl.
    destruct (process plat sc faults _ w) as [[] w']; [apply IH|done].
  - rewrite decide_False by done. apply IH.
Qed.

Lemma for_each_walk trs w :
  for_each (fun (t : text * list text * list text) w =>
              for_each (visit plat sc faults (fst (fst t))) (snd t) w)
    trs w =
  for_each (process plat sc faults)
    (flat_map (fun tr : text * list text * list text =>
                 map (os_path_join plat (fst (fst tr)))
                   (filter (fun f => endswith f (str ".sol") = true)
                      (snd tr))) trs) w.
Proof.
  revert w. induction trs as [|t trs IH]; intros w; [done|].
  simpl. rewrite for_each_app, for_each_visit.
  destruct (for_each (process plat sc faults) _ w) as [[] w']; [apply IH|done].
Qed.

Lemma main_eq w :
  main plat sc faults w =
  match for_each (process plat sc faults) (targets plat (top sc) (tree w)) w with
  | (Completed, w') =>
      (Completed, foldl (fun w l => print l w) w' (epilogue sc))
  | (Raised, w') => (Raised, w')
  end.
Proof. unfold main. by rewrite for_each_walk. Qed.

(** The epilogue prints and does nothing else. *)
Lemma epilogue_eq ls w :
  foldl (fun w l => print l w) w ls =
  World (tree w) (disk w) (trace w ++ map Print ls).
Proof.
  revert w. induction ls as [|l ls IH]; intros w; simpl.
  - rewrite app_nil_r. by destruct w.
  - rewrite IH. simpl. by rewrite <- app_assoc.
Qed.
End Loops.

(** ** What a run does *)

Lemma reads_app tr1 tr2 : reads (tr1 ++ tr2) = reads tr1 ++ reads tr2.
Proof. apply flat_map_app. Qed.

Lemma writes_app tr1 tr2 : writes (tr1 ++ tr2) = writes tr1 ++ writes tr2.
Proof. apply flat_map_app. Qed.

Lemma prints_app tr1 tr2 : prints (tr1 ++ tr2) = prints tr1 ++ prints tr2.
Proof. apply flat_map_app. Qed.

Lemma reads_prints ls : reads (map Print ls) = [].
Proof. by induction ls. Qed.

Lemma writes_prints ls : writes (map Print ls) = [].
Proof. by induction ls. Qed.

Lemma prints_prints ls : prints (map Print ls) = ls.
Proof. induction ls as [|l ls IH]; [done|]. simpl. by f_equal. Qed.

Lemma filter_ext_in {A} (P Q : A -> Prop) `{!forall x, Decision (P x)}
    `{!forall x, Decision (Q x)} (l : list A) :
  (forall x, x ∈ l -> P x <-> Q x) -> filter P l = filter Q l.
Proof.
  induction l as [|x l IH]; intros Hl; [done|].
  rewrite !filter_cons.
  assert (P x <-> Q x) as Hx by (apply Hl; left).
  rewrite IH by (intros y Hy; apply Hl; by right).
  destruct (decide (P x)), (decide (Q x)); tauto || done.
Qed.

Section Runs.
Variable plat : platform.
Variable sc : script.

(** Whatever the outcome: the script reads listed files only, in
    order; it writes files it has read, prints one message for each
    write, and leaves every other file as it is. *)
Lemma for_each_process_inv l w o w' :
  for_each (process plat sc ∅) l w = (o, w') ->
  tree w' = tree w /\
  exists evs,
    trace w' = trace w ++ evs /\
    reads evs `prefix_of` l /\
    (o = Completed -> reads evs = l) /\
    (forall p, p ∈ writes evs -> p ∈ reads evs) /\
    prints evs = map (message sc) (writes evs) /\
    (forall p, p ∉ writes evs -> disk w' !! p = disk w !! p).
Proof.
  revert w. induction l as [|p l IH]; intros w.
  - intros [= <- <-]. split; [done|]. exists [].
    rewrite app_nil_r. repeat split; done || apply prefix_nil.
  - simpl. rewrite process_eq.
    destruct (disk w !! p) as [raw|] eqn:Ed.
    + destruct (changes sc raw) eqn:Hc; cbv zeta.
      * intros (Ht & evs & Htr & Hr & Hc' & Hw & Hp & Hd)%IH.
        simpl in *. split; [done|].
        eexists ([Read p; Write p _; Print (message sc p)] ++ evs).
        rewrite Htr, <- app_assoc. split; [done|].
        rewrite reads_app, writes_app, prints_app. simpl.
        repeat split.
        -- by apply prefix_cons.
        -- intros Ho. by rewrite Hc'.
        -- intros q [->|Hq]%elem_of_cons; [left|right; by apply Hw].
        -- by rewrite Hp.
        -- intros q [Hq1 Hq2]%not_elem_of_cons.
           rewrite Hd by done. by rewrite lookup_insert_ne.
      * intros (Ht & evs & Htr & Hr & Hc' & Hw & Hp & Hd)%IH.
        simpl in *. split; [done|]. exists ([Read p] ++ evs).
        rewrite Htr, <- app_assoc. split; [done|].
        rewrite reads_app, writes_app, prints_app. simpl.
        repeat split; try done.
        -- by apply prefix_cons.
        -- intros Ho. by rewrite Hc'.
        -- intros q Hq. right. by apply Hw.
    + intros [= <- <-]. split; [done|]. exists [Read p].
      repeat split; try done.
      * simpl. apply prefix_cons, prefix_nil.
      * intros q Hq. by apply elem_of_nil in Hq.
Qed.

(** Over distinct paths, which files are written and what each file
    read holds afterwards depend on the initial disk only. *)
Lemma for_each_process_exact l w o w' :
  NoDup l ->
  for_each (process plat sc ∅) l w = (o, w') ->
  exists evs,
    trace w' = trace w ++ evs /\
    (forall p raw, p ∈ reads evs -> disk w !! p = Some raw ->
       disk w' !! p = Some (stored_after plat sc raw)) /\
    writes evs
    = filter (fun p => modifies sc (disk w) p = true) (reads evs).
Proof.
  revert w. induction l as [|p l IH]; intros w Hnd.
  - intros [= <- <-]. exists []. rewrite app_nil_r.
    split; [done|]. split; [|done]. by intros p raw Hp%elem_of_nil.
  - apply NoDup_cons in Hnd as [Hpl Hnd].
    simpl. rewrite process_eq.
    destruct (disk w !! p) as [raw|] eqn:Ed.
    2:{ intros [= <- <-]. exists [Read p]. split; [done|]. simpl.
        unfold modifies. rewrite filter_cons, Ed.
        split; [|done]. intros q raw [->|Hq%elem_of_nil]%elem_of_cons.
        - congruence.
        - done. }
    assert (forall w1,
              (forall q, q <> p -> disk w1 !! q = disk w !! q) ->
              disk w1 !! p = Some (stored_after plat sc raw) ->
              forall evs0, trace w1 = trace w ++ evs0 ->
              reads evs0 = [p] ->
              writes evs0 = (if changes sc raw then [p] else []) ->
              for_each (process plat sc ∅) l w1 = (o, w') ->
              exists evs,
                trace w' = trace w ++ evs /\
                (forall q raw, q ∈ reads evs -> disk w !! q = Some raw ->
                   disk w' !! q = Some (stored_after plat sc raw)) /\
                writes evs
                = filter (fun p => modifies sc (disk w) p = true)
                    (reads evs))
      as Hstep.
    { intros w1 Hframe Hp evs0 Htr Hr0 Hw0 Hrun.
      pose proof (for_each_process_inv _ _ _ _ Hrun)
        as (_ & evs1 & Htr1 & Hpre & _ & Hwr & _ & Hd).
      destruct (IH _ Hnd Hrun) as (evs2 & Htr2 & Hfiles & Hw2).
      assert (evs2 = evs1) as ->
        by (rewrite Htr1 in Htr2; by apply app_inv_head in Htr2).
      assert (forall q, q ∈ reads evs1 -> q <> p) as Hne.
      { intros q Hq ->. apply Hpl. destruct Hpre as [k ->].
        apply elem_of_app. by left. }
      exists (evs0 ++ evs1).
      rewrite Htr1, Htr, <- app_assoc. split; [done|].
      rewrite reads_app, writes_app, Hr0, Hw0, Hw2. split.
      - intros q raw' [->|Hq]%elem_of_cons E.
        + rewrite Hd; [congruence|].
          intros Hin%Hwr. by apply Hne in Hin.
        + apply Hfiles; [done|]. rewrite Hframe; [done|]. by apply Hne.
      - simpl. rewrite filter_cons.
        rewrite (filter_ext_in _
                   (fun p => modifies sc (disk w) p = true) (reads evs1)).
        2:{ intros q Hq. unfold modifies. rewrite Hframe; [done|].
            by apply Hne. }
        assert (modifies sc (disk w) p = changes sc raw) as ->
          by (unfold modifies; by rewrite Ed).
        by destruct (changes sc raw) eqn:Hc. }
    unfold stored_after in Hstep.
    destruct (changes sc raw) eqn:Hc; cbv zeta; intros Hrun.
    + refine (Hstep _ _ _ [Read p; Write p _; Print (message sc p)]
                _ _ _ Hrun); simpl; try done.
      * intros q Hq. by rewrite lookup_insert_ne.
      * by rewrite lookup_insert_eq.
    + refine (Hstep _ _ _ [Read p] _ _ _ Hrun); simpl; done.
Qed.
End Runs.

(** ** The rewrites are the substitution the specification describes *)

Lemma revert_expand id :
  Re.expand revert_repl [(1%nat, id)] = str "revert " ++ id ++ str "();".
Proof.
  unfold revert_repl. cbn [Re.expand flat_map Re.group Nat.eqb].
  by rewrite app_nil_r.
Qed.

Lemma fix_revert_rewrites (s : text) :
  Rewrites RevertMatch revert_repl s (fix_revert s).
Proof.
  induction s as [|c s E IH|id rest Hid IH] using revert_scan_ind.
  - rewrite fix_revert_nil. constructor.
  - rewrite fix_revert_copy by done. constructor; [|done].
    intros m g rest (id & Hid & -> & _) E2.
    assert (revert_at (c :: s) = Some (id, rest)); [|congruence].
    apply revert_at_Some. split; [done|]. rewrite E2.
    by rewrite <- !app_assoc.
  - rewrite fix_revert_match by done.
    replace (str "revert" ++ id ++ str "();" ++ rest)
      with ((str "revert" ++ id ++ str "();") ++ rest)
      by (by rewrite <- !app_assoc).
    replace (str "revert " ++ id ++ str "();" ++ fix_revert rest)
      with (Re.expand revert_repl [(1%nat, id)] ++ fix_revert rest)
      by (by rewrite revert_expand, <- !app_assoc).
    constructor; [|done]. by exists id.
Qed.

Lemma fix_revert_rewrites_unique (s t : text) :
  Rewrites RevertMatch revert_repl s t -> t = fix_revert s.
Proof.
  induction 1 as [|c s t Hno _ IH|m g rest t (id & Hid & -> & ->) _ IH].
  - by rewrite fix_revert_nil.
  - rewrite fix_revert_copy; [by rewrite IH|].
    destruct (revert_at (c :: s)) as [[id rest]|] eqn:E; [|done].
    apply revert_at_Some in E as [Hid E]. exfalso.
    apply (Hno (str "revert" ++ id ++ str "();") [(1%nat, id)] rest).
    + by exists id.
    + rewrite E. by rewrite <- !app_assoc.
  - rewrite <- !app_assoc, fix_revert_match by done.
    by rewrite revert_expand, IH, <- !app_assoc.
Qed.

Lemma fix_pragma_rewrites (s : text) :
  Rewrites PragmaMatch pragma_repl s (fix_pragma s).
Proof.
  induction s as [|c s E IH|rest IH] using pragma_scan_ind.
  - rewrite fix_pragma_nil. constructor.
  - rewrite fix_pragma_copy by done. constructor; [|done].
    intros m g rest [-> _] E2. by rewrite E2, strip_prefix_app in E.
  - rewrite fix_pragma_match.
    change (pragma_new ++ fix_pragma rest)
      with (Re.expand pragma_repl [] ++ fix_pragma rest).
    by constructor.
Qed.

Lemma fix_pragma_rewrites_unique (s t : text) :
  Rewrites PragmaMatch pragma_repl s t -> t = fix_pragma s.
Proof.
  induction 1 as [|c s t Hno _ IH|m g rest t [-> ->] _ IH].
  - by rewrite fix_pragma_nil.
  - rewrite fix_pragma_copy; [by rewrite IH|].
    destruct (Re.strip_prefix pragma_old (c :: s)) as [rest|] eqn:E; [|done].
    apply strip_prefix_Some in E. exfalso.
    by apply (Hno pragma_old [] rest).
  - rewrite fix_pragma_match, IH. done.
Qed.

(** ** File names and paths *)

Lemma endswith_suffix (s x : text) :
  endswith s x = true <-> x `suffix_of` s.
Proof.
  unfold endswith. rewrite andb_true_iff, Nat.leb_le, bool_decide_eq_true.
  split.
  - intros [Hl E]. exists (take (length s - length x) s).
    rewrite <- E at 2. by rewrite take_drop.
  - intros [k ->]. rewrite length_app. split; [lia|].
    replace (length k + length x - length x)%nat with (length k) by lia.
    by rewrite drop_app_length.
Qed.

Lemma is_sep_inv plat c : is_sep plat c = true -> c = 47 \/ c = 92.
Proof.
  destruct plat; simpl.
  - intros ->%N.eqb_eq. by left.
  - intros [->%N.eqb_eq| ->%N.eqb_eq]%orb_true_iff; [by right|by left].
Qed.

(** A joined path is the name after nothing or after a separator. *)
Lemma os_path_join_split plat a b :
  exists pre,
    os_path_join plat a b = pre ++ b /\
    (pre = [] \/ exists c, last pre = Some c /\ (c = 47 \/ c = 92)).
Proof.
  unfold os_path_join. destruct (last a) as [c|] eqn:El.
  - destruct (is_sep plat c) eqn:Hc.
    + exists a. split; [done|]. right. exists c.
      split; [done|]. by eapply is_sep_inv.
    + exists (a ++ [os_sep plat]). rewrite <- app_assoc. split; [done|].
      right. exists (os_sep plat). rewrite last_snoc. split; [done|].
      destruct plat; [by left|by right].
  - exists []. split; [done|]. by left.
Qed.

(** Joining keeps the extension of the name, and adds none. *)
Lemma os_path_join_sol plat a f :
  endswith (os_path_join plat a f) (str ".sol") = endswith f (str ".sol").
Proof.
  destruct (os_path_join_split plat a f) as (pre & -> & Hpre).
  apply eq_true_iff_eq. rewrite !endswith_suffix. split.
  - intros [k E]. apply app_eq_inv in E as [(l & -> & E)|(l & -> & ->)].
    2:{ by exists l. }
    destruct l as [|c1 l];
      [exists []; rewrite app_nil_l in E; by rewrite <- E|].
    exfalso.
    destruct Hpre as [Hpre|(c & Hc & Hsep)].
    { by apply app_eq_nil in Hpre as [_ ?]. }
    rewrite last_app in Hc.
    change (str ".sol") with [46; 115; 111; 108] in E.
    injection E as <- E.
    destruct l as [|c2 l]; [simpl in Hc; destruct Hsep; congruence|].
    injection E as <- E.
    destruct l as [|c3 l]; [simpl in Hc; destruct Hsep; congruence|].
    injection E as <- E.
    destruct l as [|c4 l]; [simpl in Hc; destruct Hsep; congruence|].
    injection E as <- E.
    destruct l; [simpl in Hc; destruct Hsep; congruence|done].
  - intros [k ->]. exists (pre ++ k). by rewrite <- app_assoc.
Qed.

Lemma targets_spec plat top t p :
  p ∈ targets plat top t <->
  exists tr f, tr ∈ os_walk plat top t /\ f ∈ snd tr
               /\ endswith f (str ".sol") = true
               /\ p = os_path_join plat (fst (fst tr)) f.
Proof.
  unfold targets. rewrite list_elem_of_In, in_flat_map. split.
  - intros (tr & Htr & Hp). apply list_elem_of_In in Htr, Hp.
    apply list_elem_of_fmap in Hp as (f & -> & Hf).
    apply list_elem_of_filter in Hf as [Hf1 Hf2]. by exists tr, f.
  - intros (tr & f & Htr & Hf & Hsol & ->). exists tr.
    rewrite <- !list_elem_of_In. split; [done|].
    apply list_elem_of_fmap. exists f. split; [done|].
    by apply list_elem_of_filter.
Qed.

Lemma targets_sol plat top t p :
  p ∈ targets plat top t -> endswith p (str ".sol") = true.
Proof.
  intros (tr & f & _ & _ & Hsol & ->)%targets_spec.
  by rewrite os_path_join_sol.
Qed.

(** ** The messages *)

Lemma message_label s p : message (script_of s) p = label s ++ p.
Proof. by destruct s. Qed.

Lemma message_inj s p q :
  message (script_of s) p = message (script_of s) q -> p = q.
Proof. rewrite !message_label. apply app_inv_head. Qed.

Lemma message_not_epilogue s p :
  message (script_of s) p ∉ epilogue (script_of s).
Proof.
  destruct s; simpl; [apply not_elem_of_nil|].
  by intros [=]%list_elem_of_singleton.
Qed.

(** ** Matches in context, for the revert rule *)






(** A match reads an upper-case letter right after its six letters. *)
Lemma revert_at_upper s g rest :
  revert_at s = Some (g, rest) ->
  exists c, s !! 6%nat = Some c /\ Re.in_class c upper = true.
Proof.
  intros [Hg ->]%revert_at_Some. destruct g as [|c a]; [done|].
  cbn [is_ident] in Hg. apply andb_true_iff in Hg as [Hc _].
  by exists c.
Qed.

(** After any text without upper-case letters, letters included, the
    match is found and replaced: nothing anchors the pattern to the
    start of a word. *)
Lemma fix_revert_lower (u : text) g rest :
  Forall (fun c => Re.in_class c upper = false) u ->
  is_ident g = true ->
  fix_revert (u ++ str "revert" ++ g ++ str "();" ++ rest)
  = u ++ str "revert " ++ g ++ str "();" ++ fix_revert rest.
Proof.
  intros Hu Hg. induction Hu as [|c u Hc Hu IH].
  - by rewrite app_nil_l, fix_revert_match.
  - rewrite <- !app_comm_cons, fix_revert_copy; [by rewrite IH|].
    destruct (revert_at _) as [[g' rest']|] eqn:E; [|done]. exfalso.
    apply revert_at_upper in E as (d & Hd & Hup).
    change (str "revert" ++ ?x)
      with (114 :: 101 :: 118 :: 101 :: 114 :: 116 :: x) in Hd.
    do 6 (destruct u as [|? u];
          [injection Hd as <-; by vm_compute in Hup|
           apply Forall_cons in Hu as [? Hu]]).
    injection Hd as <-. congruence.
Qed.

(** ** Occurrences of a literal *)

Lemma occurs_spec (l x : text) :
  occurs l x = true <-> exists a b, x = a ++ l ++ b.
Proof.
  induction x as [|c x IH]; simpl.
  - destruct l as [|d l]; simpl.
    + split; [|done]. intros _. by exists [], [].
    + split; [done|]. intros (a & b & E). by destruct a.
  - destruct (Re.strip_prefix l (c :: x)) as [r|] eqn:E.
    + apply strip_prefix_Some in E. split; [|done]. intros _.
      exists [], r. by rewrite E.
    + rewrite IH. split.
      * intros (a & b & ->). by exists (c :: a), b.
      * intros ([|d a] & b & E2).
        -- apply strip_prefix_None in E. destruct E. exists b.
           by rewrite E2.
        -- injection E2 as -> ->. by exists a, b.
Qed.

Lemma occurs_pragma (x : text) :
  occurs pragma_old x = Re.search pragma_pattern x.
Proof.
  apply eq_true_iff_eq. by rewrite occurs_spec, pragma_search.
Qed.

(** ** Line ends *)

Lemma universal_newlines_id (raw : text) :
  13 ∉ raw -> universal_newlines raw = raw.
Proof.
  induction raw as [|c raw IH]; [done|].
  intros [Hc Hr]%not_elem_of_cons. simpl.
  destruct (N.eqb_spec c 13) as [->|_]; [done|]. by rewrite IH.
Qed.

Lemma write_newlines_posix (t : text) : write_newlines Posix t = t.
Proof.
  unfold write_newlines. induction t as [|c t IH]; [done|].
  cbn [flat_map]. rewrite IH.
  by destruct (N.eqb_spec c 10) as [->|_].
Qed.

Example universal_newlines_ex :
  universal_newlines [97; 13; 10; 98; 13; 99; 10] = [97; 10; 98; 10; 99; 10].
Proof. reflexivity. Qed.

(** A file that holds CR and [revertFoo();], after [fix_revert.py] on
    each platform, and the substitution applied to its content. *)
Example cr_file_rewritten :
  let t := Some [FileEnt (str "A.sol")] in
  let raw := 13 :: str "revertFoo();" in
  let p := os_path_join Posix contracts_dir (str "A.sol") in
  let q := os_path_join Windows contracts_dir (str "A.sol") in
  disk (snd (run Posix FixRevert t {[ p := raw ]})) !! p
  = Some (10 :: str "revert Foo();")
  /\ disk (snd (run Windows FixRevert t {[ q := raw ]})) !! q
     = Some (13 :: 10 :: str "revert Foo();")
  /\ fix_revert raw = 13 :: str "revert Foo();".
Proof. by vm_compute. Qed.

(** ** Files the script leaves alone, files it rewrites *)

Section Effects.
Variable plat : platform.
Variable sc : script.

Lemma for_each_process_unchanged l w o w' p :
  modifies sc (disk w) p = false ->
  for_each (process plat sc ∅) l w = (o, w') ->
  exists evs, trace w' = trace w ++ evs /\ (p ∉ writes evs)
              /\ disk w' !! p = disk w !! p.
Proof.
  revert w. induction l as [|q l IH]; intros w Hm.
  - intros [= <- <-]. exists []. rewrite app_nil_r.
    split; [done|]. split; [apply not_elem_of_nil|done].
  - simpl. rewrite process_eq.
    destruct (disk w !! q) as [raw|] eqn:Ed.
    2:{ intros [= <- <-]. exists [Read q].
        split; [done|]. split; [apply not_elem_of_nil|done]. }
    destruct (changes sc raw) eqn:Hc; cbv zeta.
    + assert (p <> q) as Hpq.
      { intros ->. unfold modifies in Hm. rewrite Ed in Hm. congruence. }
      intros (evs & Htr & Hw & Hd)%IH.
      * simpl in *. eexists (_ ++ evs). rewrite Htr, <- app_assoc.
        split; [done|]. rewrite writes_app, Hd. simpl.
        split; [|by rewrite lookup_insert_ne].
        by apply not_elem_of_cons.
      * unfold modifies in *. simpl. by rewrite lookup_insert_ne.
    + intros (evs & Htr & Hw & Hd)%IH; [|done].
      simpl in *. exists ([Read q] ++ evs). rewrite Htr, <- app_assoc.
      by rewrite writes_app.
Qed.

Lemma for_each_process_changed l w o w' p evs :
  modifies sc (disk w) p = true ->
  for_each (process plat sc ∅) l w = (o, w') ->
  trace w' = trace w ++ evs ->
  p ∈ reads evs -> p ∈ writes evs.
Proof.
  revert w evs. induction l as [|q l IH]; intros w evs Hm.
  - intros [= <- <-] E. rewrite <- (app_nil_r (trace w)) in E at 1.
    apply app_inv_head in E as <-. by intros ?%elem_of_nil.
  - simpl. rewrite process_eq.
    destruct (disk w !! q) as [raw|] eqn:Ed.
    2:{ intros [= <- <-] E. apply app_inv_head in E as <-.
        intros ->%list_elem_of_singleton. unfold modifies in Hm.
        by rewrite Ed in Hm. }
    destruct (decide (p = q)) as [->|Hpq].
    + unfold modifies in Hm. rewrite Ed in Hm. rewrite Hm. cbv zeta.
      intros Hrun E _.
      apply for_each_process_inv in Hrun as (_ & evs1 & Htr & _).
      simpl in Htr. rewrite Htr, <- app_assoc in E.
      apply app_inv_head in E as <-. simpl. left.
    + destruct (changes sc raw) eqn:Hc; cbv zeta; intros Hrun E.
      * pose proof Hrun as (_ & evs1 & Htr & _)%for_each_process_inv.
        simpl in Htr. rewrite Htr, <- app_assoc in E.
        apply app_inv_head in E as <-.
        rewrite reads_app, writes_app. simpl.
        intros [?|Hr]%elem_of_cons; [done|]. right.
        eapply IH; [|exact Hrun|exact Htr|done].
        unfold modifies in *. simpl. by rewrite lookup_insert_ne.
      * pose proof Hrun as (_ & evs1 & Htr & _)%for_each_process_inv.
        simpl in Htr. rewrite Htr, <- app_assoc in E.
        apply app_inv_head in E as <-.
        rewrite reads_app, writes_app. simpl.
        intros [?|Hr]%elem_of_cons; [done|].
        eapply IH; [|exact Hrun|exact Htr|done]. done.
Qed.
End Effects.

(** ** Runs of the scripts *)

Lemma run_inv plat s t d o w' :
  run plat s t d = (o, w') ->
  exists w1,
    for_each (process plat (script_of s) ∅)
      (targets plat (top (script_of s)) t) (World t d []) = (o, w1) /\
    disk w' = disk w1 /\
    trace w' = trace w1 ++ (match o with
                            | Completed => map Print (epilogue (script_of s))
                            | Raised => []
                            end).
Proof.
  unfold run, run_with. rewrite main_eq. simpl tree.
  destruct (for_each _ _ _) as [[] w1]; intros [= <- <-]; exists w1.
  - by rewrite epilogue_eq.
  - by rewrite app_nil_r.
Qed.

(** What every run satisfies. *)
Lemma run_facts plat s t d o w' :
  run plat s t d = (o, w') ->
  reads (trace w') `prefix_of` targets plat (top (script_of s)) t /\
  (o = Completed -> reads (trace w') = targets plat (top (script_of s)) t) /\
  (forall p, p ∈ writes (trace w') -> p ∈ reads (trace w')) /\
  prints (trace w')
  = map (message (script_of s)) (writes (trace w'))
    ++ (match o with
        | Completed => epilogue (script_of s)
        | Raised => []
        end) /\
  (forall p, p ∉ writes (trace w') -> disk w' !! p = d !! p).
Proof.
  intros (w1 & Hrun & Hd & Htr)%run_inv.
  apply for_each_process_inv in Hrun
    as (_ & evs & Hevs & Hpre & Hall & Hwr & Hpr & Hfr).
  simpl in Hevs. rewrite Hevs in Htr. rewrite Htr, Hd.
  rewrite reads_app, writes_app, prints_app.
  assert (reads (match o with
                 | Completed => map Print (epilogue (script_of s))
                 | Raised => []
                 end) = []) as -> by (destruct o; [apply reads_prints|done]).
  assert (writes (match o with
                  | Completed => map Print (epilogue (script_of s))
                  | Raised => []
                  end) = []) as -> by (destruct o; [apply writes_prints|done]).
  rewrite !app_nil_r. repeat split; try done.
  rewrite Hpr. f_equal. destruct o; [apply prints_prints|done].
Qed.

(** Over a listing without repeated paths. *)
Lemma run_facts_nodup plat s t d o w' :
  NoDup (targets plat (top (script_of s)) t) ->
  run plat s t d = (o, w') ->
  NoDup (reads (trace w')) /\
  (forall p raw, p ∈ reads (trace w') -> d !! p = Some raw ->
     disk w' !! p = Some (stored_after plat (script_of s) raw)) /\
  writes (trace w')
  = filter (fun p => modifies (script_of s) d p = true) (reads (trace w')).
Proof.
  intros Hnd Hrun. pose proof Hrun as (Hpre & _)%run_facts.
  apply run_inv in Hrun as (w1 & Hrun & Hd & Htr).
  apply for_each_process_exact in Hrun as (evs & Hevs & Hfiles & Hw);
    [|done].
  simpl in Hevs, Hfiles, Hw. rewrite Hevs in Htr.
  split.
  { destruct Hpre as [k Hk]. rewrite Hk in Hnd.
    by apply NoDup_app in Hnd as [? _]. }
  rewrite Htr, Hd, reads_app, writes_app.
  assert (reads (match o with
                 | Completed => map Print (epilogue (script_of s))
                 | Raised => []
                 end) = []) as -> by (destruct o; [apply reads_prints|done]).
  assert (writes (match o with
                  | Completed => map Print (epilogue (script_of s))
                  | Raised => []
                  end) = []) as -> by (destruct o; [apply writes_prints|done]).
  by rewrite !app_nil_r.
Qed.

(** Whether a file is written, whatever the listing. *)
Lemma run_writes plat s t d o w' p raw :
  run plat s t d = (o, w') ->
  d !! p = Some raw ->
  (changes (script_of s) raw = false ->
     (p ∉ writes (trace w')) /\ disk w' !! p = Some raw) /\
  (changes (script_of s) raw = true ->
     p ∈ reads (trace w') -> p ∈ writes (trace w')).
Proof.
  intros (w1 & Hrun & Hd & Htr)%run_inv Hp.
  assert (writes (trace w') = writes (trace w1)) as Hw.
  { rewrite Htr, writes_app. destruct o; [|by rewrite app_nil_r].
    by rewrite writes_prints, app_nil_r. }
  assert (reads (trace w') = reads (trace w1)) as Hr.
  { rewrite Htr, reads_app. destruct o; [|by rewrite app_nil_r].
    by rewrite reads_prints, app_nil_r. }
  rewrite Hw, Hr, Hd. split; intros Hc.
  - eapply (for_each_process_unchanged _ _ _ _ _ _ p) in Hrun
      as (evs & Hevs & Hnw & Hdisk).
    + simpl in Hevs, Hdisk. by rewrite Hevs, Hdisk.
    + unfold modifies. simpl. by rewrite Hp.
  - eapply for_each_process_changed; [|exact Hrun|done].
    unfold modifies. simpl. by rewrite Hp.
Qed.

(** The rules change a text exactly when their pattern occurs in it. *)
Lemma changes_search s raw :
  changes (script_of s) raw
  = Re.search (pat (script_of s)) (universal_newlines raw).
Proof.
  unfold changes, new_text. apply eq_true_iff_eq.
  rewrite bool_decide_eq_true. destruct s; simpl.
  - fold (fix_revert (universal_newlines raw)).
    rewrite <- fix_revert_unchanged. by destruct (Re.search _ _).
  - fold (fix_pragma (universal_newlines raw)).
    rewrite <- fix_pragma_unchanged. by destruct (Re.search _ _).
Qed.



(** * The claims *)

(** C1, as the code has it.  Over a listing that repeats no path, a
    file that has been read holds afterwards its original content when
    the pattern does not occur in the text read, and otherwise the text
    read with every leftmost non-overlapping match replaced once, left
    to right, written with the line separator of the platform.  The
    text read is the content with every CR LF and CR read as LF.  For a
    content without CR on a platform whose separator is LF, this is the
    substitution applied to the content itself. *)
Theorem C1_content_after_processing (plat : platform) (s : which)
    (t : option (list dirent)) (d : gmap text text) (o : outcome)
    (w' : world) (p raw : text) :
  NoDup (targets plat (top (script_of s)) t) ->
  run plat s t d = (o, w') ->
  p ∈ reads (trace w') ->
  d !! p = Some raw ->
  let sc := script_of s in
  let content := universal_newlines raw in
  let new_content := Re.sub (pat sc) (repl sc) content in
  Rewrites (MatchOf s) (repl sc) content new_content
  /\ (forall t', Rewrites (MatchOf s) (repl sc) content t' ->
       t' = new_content)
  /\ (Re.search (pat sc) content = false -> disk w' !! p = Some raw)
  /\ (Re.search (pat sc) content = true ->
      disk w' !! p = Some (write_newlines plat new_content))
  /\ (plat = Posix -> 13 ∉ raw ->
      disk w' !! p
      = Some (if Re.search (pat sc) raw then Re.sub (pat sc) (repl sc) raw
              else raw)).
Proof.
  intros Hnd Hrun Hr Hp sc content new_content.
  destruct (run_facts_nodup _ _ _ _ _ _ Hnd Hrun) as (_ & Hfiles & _).
  specialize (Hfiles p raw Hr Hp). unfold stored_after, new_text in Hfiles.
  rewrite changes_search in Hfiles.
  fold sc content in Hfiles. fold new_content in Hfiles.
  split; [|split; [|split; [|split]]].
  - destruct s; [apply fix_revert_rewrites|apply fix_pragma_rewrites].
  - destruct s;
      [apply fix_revert_rewrites_unique|apply fix_pragma_rewrites_unique].
  - intros Hs. by rewrite Hs in Hfiles.
  - intros Hs. by rewrite Hs in Hfiles.
  - intros -> Hcr. subst new_content content.
    rewrite universal_newlines_id in Hfiles by done.
    rewrite Hfiles. destruct (Re.search _ _); [|done].
    by rewrite write_newlines_posix.
Qed.

Lemma C1_witness :
  disk (snd (run Posix FixRevert example_tree (example_disk FixRevert)))
    !! example_path FixRevert [str "A.sol"]
  = Some (str "pragma solidity =0.8.15; revert Foo(); revert Bar();").
Proof.
  assert (NoDup (targets Posix (top (script_of FixRevert)) example_tree))
    as Hnd by (apply (bool_decide_unpack _); by vm_compute).
  assert (example_path FixRevert [str "A.sol"]
          ∈ reads (trace (snd (run Posix FixRevert example_tree
                                 (example_disk FixRevert))))) as Hr
    by (apply (bool_decide_unpack _); by vm_compute).
  destruct (C1_content_after_processing Posix FixRevert example_tree
              (example_disk FixRevert) _ _
              (example_path FixRevert [str "A.sol"]) _
              Hnd (surjective_pairing _) Hr eq_refl)
    as (_ & _ & _ & Hnew & _).
  rewrite Hnew; reflexivity.
Defined.

(** C1 as stated fails: a file that holds a CR and [revertFoo();] is
    written back with LF for the CR, which is neither its content nor
    the substitution applied to its content. *)
Lemma C1_counterexample :
  ~ (forall plat s t d o w' p raw,
       NoDup (targets plat (top (script_of s)) t) ->
       run plat s t d = (o, w') ->
       p ∈ reads (trace w') ->
       d !! p = Some raw ->
       disk w' !! p = Some raw
       \/ disk w' !! p
          = Some (Re.sub (pat (script_of s)) (repl (script_of s)) raw)).
Proof.
  intros H.
  pose (p := example_path FixRevert [str "A.sol"]).
  pose (raw := 13 :: str "revertFoo();").
  pose (d := {[ p := raw ]} : gmap text text).
  pose (t := Some [FileEnt (str "A.sol")]).
  assert (disk (snd (run Posix FixRevert t d)) !! p
          = Some (10 :: str "revert Foo();")) as E by by vm_compute.
  assert (NoDup (targets Posix (top (script_of FixRevert)) t)) as Hnd
    by (apply (bool_decide_unpack _); by vm_compute).
  assert (p ∈ reads (trace (snd (run Posix FixRevert t d)))) as Hr
    by (apply (bool_decide_unpack _); by vm_compute).
  assert (d !! p = Some raw) as Hp by by vm_compute.
  destruct (H Posix FixRevert t d (fst (run Posix FixRevert t d))
              (snd (run Posix FixRevert t d)) p raw Hnd
              (surjective_pairing _) Hr Hp) as [H1|H1];
    pose proof (eq_trans (eq_sym E) H1) as H2; by vm_compute in H2.
Qed.

(** C2, as the code has it.  The pragma rule is idempotent on every
    text.  For the revert rule, a second pass changes nothing exactly
    when no identifier captured by the first pass is itself followed,
    inside its own text, by a further match, that is, contains
    [revert] and an upper-case letter after its first character. *)
Theorem C2_idempotence :
  (forall x, fix_pragma (fix_pragma x) = fix_pragma x) /\
  (forall x,
     fix_revert (fix_revert x) = fix_revert x <->
     Forall (fun id => Re.search pattern (id ++ str "();") = false)
       (captured x)).
Proof. split; [apply fix_pragma_idempotent|apply fix_revert_twice]. Qed.

(** C2 as stated fails: on [revertXrevertFoo();] the first pass gives
    [revert XrevertFoo();] and the second [revert Xrevert Foo();]. *)
Lemma C2_counterexample :
  ~ (forall x, fix_revert (fix_revert x) = fix_revert x).
Proof.
  intros H. specialize (H (str "revertXrevertFoo();")).
  by vm_compute in H.
Qed.

(** C3. For the revert rule, the text [revertInsufficientBalance();]
    becomes [revert InsufficientBalance();]: one space is put in and
    the captured identifier is reused.  The text [revert AlreadySet();],
    which has its space, is left as it is. *)
Theorem C3_capture_correctness :
  fix_revert (str "revertInsufficientBalance();")
  = str "revert InsufficientBalance();"
  /\ fix_revert (str "revert AlreadySet();") = str "revert AlreadySet();".
Proof. split; by vm_compute. Qed.

(** C4. For the pragma rule: an occurrence of
    [pragma solidity =0.8.15;] is replaced by [pragma solidity ^0.8.20;]
    whatever stands before and after it, so that no occurrence is left
    in the result; a text in which it does not occur, such as one that
    holds [pragma solidity ^0.8.19;] instead, is left as it is. *)
Theorem C4_literal_replacement :
  (forall u v : text,
     fix_pragma (u ++ pragma_old ++ v)
     = fix_pragma u ++ pragma_new ++ fix_pragma v) /\
  (forall x : text, occurs pragma_old (fix_pragma x) = false) /\
  (forall x : text, occurs pragma_old x = false -> fix_pragma x = x) /\
  (forall u v : text,
     occurs pragma_old (u ++ str "pragma solidity ^0.8.19;" ++ v) = false ->
     fix_pragma (u ++ str "pragma solidity ^0.8.19;" ++ v)
     = u ++ str "pragma solidity ^0.8.19;" ++ v).
Proof.
  split; [apply fix_pragma_app|]. split; [|split].
  - intros x. rewrite occurs_pragma. apply fix_pragma_clean.
  - intros x Hx. apply fix_pragma_unchanged. by rewrite <- occurs_pragma.
  - intros u v Hx. apply fix_pragma_unchanged. by rewrite <- occurs_pragma.
Qed.

Lemma C4_witness :
  fix_pragma (str "pragma solidity =0.8.15;") = str "pragma solidity ^0.8.20;"
  /\ fix_pragma (str "pragma solidity ^0.8.19;")
     = str "pragma solidity ^0.8.19;".
Proof.
  destruct C4_literal_replacement as (Happ & _ & _ & Hkeep). split.
  - exact (Happ [] []).
  - apply (Hkeep [] []). reflexivity.
Defined.

(** C5. A file in which the pattern does not occur is not written at
    all, is not reported and keeps its content.  A file that is read is
    written exactly when the substituted text differs from the text
    read, and a file is reported exactly when it is written. *)
Theorem C5_no_op_preservation (plat : platform) (s : which)
    (t : option (list dirent)) (d : gmap text text) (o : outcome)
    (w' : world) (p raw : text) :
  run plat s t d = (o, w') ->
  d !! p = Some raw ->
  let sc := script_of s in
  let content := universal_newlines raw in
  let new_content := Re.sub (pat sc) (repl sc) content in
  (Re.search (pat sc) content = false ->
     new_content = content
     /\ (p ∉ writes (trace w'))
     /\ (message sc p ∉ prints (trace w'))
     /\ disk w' !! p = Some raw)
  /\ (p ∈ reads (trace w') ->
      (p ∈ writes (trace w') <-> new_content <> content))
  /\ (message sc p ∈ prints (trace w') <-> p ∈ writes (trace w')).
Proof.
  intros Hrun Hp sc content new_content.
  assert (changes sc raw = true <-> new_content <> content) as Hch
    by apply bool_decide_eq_true.
  assert (changes sc raw = Re.search (pat sc) content) as Hcs
    by apply changes_search.
  clearbody new_content content. subst sc.
  destruct (run_writes _ _ _ _ _ _ _ _ Hrun Hp) as [Hsame Hdiff].
  apply run_facts in Hrun as (_ & _ & _ & Hpr & _).
  assert (message (script_of s) p ∈ prints (trace w')
          <-> p ∈ writes (trace w')) as Hrep.
  { rewrite Hpr, elem_of_app, list_elem_of_fmap. split.
    - intros [(q & Hq%message_inj & Hin)|Hin]; [by subst q|].
      destruct o; [by apply message_not_epilogue in Hin|].
      by apply elem_of_nil in Hin.
    - intros Hin. left. by exists p. }
  split; [|split; [|done]].
  - intros Hs. rewrite <- Hcs in Hs.
    destruct (Hsame Hs) as [Hnw Hd].
    split; [|split; [done|split; [by rewrite Hrep|done]]].
    destruct (decide (new_content = content)) as [|Hne]; [done|].
    apply Hch in Hne. congruence.
  - intros Hr. rewrite <- Hch. split.
    + intros Hw. destruct (changes (script_of s) raw) eqn:Hc; [done|].
      by destruct (Hsame eq_refl).
    + intros Hc. by apply Hdiff.
Qed.

Lemma C5_witness :
  (example_path FixRevert [str "lib"; str "B.sol"]
     ∉ writes (trace (snd (run Posix FixRevert example_tree
                             (example_disk FixRevert))))) /\
  disk (snd (run Posix FixRevert example_tree (example_disk FixRevert)))
    !! example_path FixRevert [str "lib"; str "B.sol"]
  = Some (str "pragma solidity ^0.8.19; revert Ok();").
Proof.
  destruct (C5_no_op_preservation Posix FixRevert example_tree
              (example_disk FixRevert) _ _
              (example_path FixRevert [str "lib"; str "B.sol"]) _
              (surjective_pairing _) eq_refl) as (Hkeep & _).
  destruct Hkeep as (_ & Hnw & _ & Hd); [reflexivity|]. by split.
Defined.

(** C6. A file whose name does not end with [.sol], compared character
    by character, is never opened, never written and never reported,
    and keeps its content; this holds for the path made of any
    directory and such a name, so for every file under the directory
    the walk starts from.  [X.SOL] and [X.solx] are such names. *)
Theorem C6_selectivity (plat : platform) (s : which)
    (t : option (list dirent)) (d : gmap text text) (o : outcome)
    (w' : world) (dir f : text) :
  run plat s t d = (o, w') ->
  ~ str ".sol" `suffix_of` f ->
  let p := os_path_join plat dir f in
  endswith f (str ".sol") = false
  /\ (p ∉ reads (trace w'))
  /\ (p ∉ writes (trace w'))
  /\ (message (script_of s) p ∉ prints (trace w'))
  /\ disk w' !! p = d !! p.
Proof.
  intros Hrun Hf p.
  assert (endswith f (str ".sol") = false) as Hend.
  { destruct (endswith f (str ".sol")) eqn:E; [|done].
    by apply endswith_suffix in E. }
  apply run_facts in Hrun as (Hpre & _ & Hwr & Hpr & Hfr).
  assert (p ∉ reads (trace w')) as Hnr.
  { intros Hin. destruct Hpre as [k Hk].
    assert (p ∈ targets plat (top (script_of s)) t) as Hp
      by (rewrite Hk; apply elem_of_app; by left).
    apply targets_sol in Hp. unfold p in Hp.
    rewrite os_path_join_sol in Hp. congruence. }
  assert (p ∉ writes (trace w')) as Hnw by (intros Hin; by apply Hwr in Hin).
  split; [done|]. split; [done|]. split; [done|]. split; [|by apply Hfr].
  rewrite Hpr. intros [Hin|Hin]%elem_of_app.
  - apply list_elem_of_fmap in Hin as (q & Hq%message_inj & Hin).
    by subst q.
  - destruct o; [by apply message_not_epilogue in Hin|].
    by apply elem_of_nil in Hin.
Qed.

Lemma C6_witness :
  (example_path FixRevert [str "X.SOL"]
     ∉ reads (trace (snd (run Posix FixRevert example_tree
                            (example_disk FixRevert))))) /\
  (example_path FixSolidityVersion [str "X.solx"]
     ∉ reads (trace (snd (run Posix FixSolidityVersion example_tree
                            (example_disk FixSolidityVersion))))).
Proof.
  split.
  - refine (proj1 (proj2 (C6_selectivity Posix FixRevert example_tree
                            (example_disk FixRevert) _ _
                            contracts_dir (str "X.SOL")
                            (surjective_pairing _) _))).
    intros H%endswith_suffix. by vm_compute in H.
  - refine (proj1 (proj2 (C6_selectivity Posix FixSolidityVersion
                            example_tree (example_disk FixSolidityVersion)
                            _ _ periphery_dir (str "X.solx")
                            (surjective_pairing _) _))).
    intros H%endswith_suffix. by vm_compute in H.
Defined.

(** C7. When the configured directory does not exist, the run completes
    without an error: it opens no file, writes none, leaves the disk as
    it is and prints no message about a file (the pragma script still
    prints its last line). *)
Theorem C7_missing_root (plat : platform) (s : which) (d : gmap text text) :
  run plat s None d
  = (Completed, World None d (map Print (epilogue (script_of s))))
  /\ targets plat (top (script_of s)) None = []
  /\ reads (map Print (epilogue (script_of s))) = []
  /\ writes (map Print (epilogue (script_of s))) = []
  /\ forall p, message (script_of s) p
               ∉ prints (map Print (epilogue (script_of s))).
Proof.
  split; [|split; [done|split; [apply reads_prints|split]]].
  - unfold run, run_with, main. simpl. by rewrite epilogue_eq.
  - apply writes_prints.
  - intros p. rewrite prints_prints. apply message_not_epilogue.
Qed.




(** C9. What a run prints is one line for each file it has written, in
    order, made of [Fixed ] or [Updated: ] and the path of the file;
    the pragma script, and only it, then prints [Done!] when the walk
    has completed, whether or not a file was written.  No file is
    written twice when the listing repeats no path. *)
Theorem C9_console_output (plat : platform) (s : which)
    (t : option (list dirent)) (d : gmap text text) :
  let o := fst (run plat s t d) in
  let tr := trace (snd (run plat s t d)) in
  prints tr
  = map (fun p => label s ++ p) (writes tr)
    ++ (match s, o with
        | FixSolidityVersion, Completed => [str "Done!"]
        | _, _ => []
        end)
  /\ (NoDup (targets plat (top (script_of s)) t) -> NoDup (writes tr)).
Proof.
  intros o tr. subst o tr.
  destruct (run plat s t d) as [o w'] eqn:Hrun. simpl. split.
  - apply run_facts in Hrun as (_ & _ & _ & -> & _). f_equal.
    + apply map_ext. intros p. apply message_label.
    + by destruct s, o.
  - intros Hnd.
    destruct (run_facts_nodup _ _ _ _ _ _ Hnd Hrun) as (Hr & _ & ->).
    by apply NoDup_filter.
Qed.

Lemma C9_witness :
  prints (trace (snd (run Posix FixSolidityVersion (Some []) ∅)))
  = [str "Done!"].
Proof.
  destruct (C9_console_output Posix FixSolidityVersion (Some []) ∅)
    as [-> _].
  reflexivity.
Defined.

(** C10. The pattern is not anchored at the start of a word: after any
    text without upper-case letters, letters included, a
    [revert<Identifier>();] is matched and gets its space;
    [dontrevertFoo();] becomes [dontrevert Foo();]. *)
Theorem C10_no_word_boundary (u : text) (id rest : text) :
  Forall (fun c => Re.in_class c upper = false) u ->
  is_ident id = true ->
  fix_revert (u ++ str "revert" ++ id ++ str "();" ++ rest)
  = u ++ str "revert " ++ id ++ str "();" ++ fix_revert rest.
Proof. apply fix_revert_lower. Qed.

Lemma C10_witness :
  fix_revert (str "dontrevertFoo();") = str "dontrevert Foo();".
Proof.
  apply (C10_no_word_boundary (str "dont") (str "Foo") []).
  - by repeat constructor.
  - reflexivity.
Defined.

(** * Further properties of the two rewrites *)

(** Searching, for the revert pattern: some [revert<Ident>();]. *)
Lemma revert_search (s : text) :
  Re.search pattern s = true <->
  exists u id v,
    is_ident id = true /\ s = u ++ str "revert" ++ id ++ str "();" ++ v.
Proof.
  induction s as [|c s IH].
  - rewrite search_nil by apply revert_nonempty. split; [done|].
    intros (u & id & v & _ & E). apply (f_equal length) in E.
    len. simpl in E. lia.
  - rewrite search_cons, revert_match_at.
    destruct (revert_at (c :: s)) as [[id rest]|] eqn:E.
    + apply revert_at_Some in E as [Hid E]. split; [|done]. intros _.
      exists [], id, rest. by rewrite E.
    + rewrite IH. split.
      * intros (u & id & v & Hid & ->). by exists (c :: u), id, v.
      * intros ([|d u] & id & v & Hid & E2).
        -- rewrite app_nil_l in E2.
           by rewrite (proj2 (revert_at_Some _ id v)) in E.
        -- injection E2 as -> ->. by exists u, id, v.
Qed.

Lemma fix_revert_length (x : text) :
  length (fix_revert x) = (length x + length (captured x))%nat.
Proof.
  induction x as [|c s E IH|id rest Hid IH] using revert_scan_ind.
  - by rewrite fix_revert_nil, captured_nil.
  - rewrite fix_revert_copy, captured_copy by done. simpl. by rewrite IH.
  - rewrite fix_revert_match, captured_match by done. len.
    rewrite IH. simpl. lia.
Qed.

Lemma fix_pragma_length (x : text) : length (fix_pragma x) = length x.
Proof.
  induction x as [|c s E IH|rest IH] using pragma_scan_ind.
  - by rewrite fix_pragma_nil.
  - rewrite fix_pragma_copy by done. simpl. by rewrite IH.
  - rewrite fix_pragma_match. len. by rewrite IH.
Qed.

Lemma fix_revert_spaces (x : text) :
  filter (fun c => c <> 32) (fix_revert x) = filter (fun c => c <> 32) x.
Proof.
  induction x as [|c s E IH|id rest Hid IH] using revert_scan_ind.
  - by rewrite fix_revert_nil.
  - rewrite fix_revert_copy by done.
    rewrite (filter_cons _ c (fix_revert s)), (filter_cons _ c s).
    unfold text in *. by rewrite IH.
  - rewrite fix_revert_match by done.
    unfold text in *. rewrite !filter_app, IH. by f_equal.
Qed.

(** What a rewritten text is made of. *)
Lemma fix_revert_elem (x : text) c :
  c ∈ fix_revert x -> c = 32 \/ c ∈ x.
Proof.
  intros Hc. destruct (decide (c = 32)) as [|Hne]; [by left|right].
  assert (c ∈ filter (fun c => c <> 32) (fix_revert x)) as Hin
    by by apply list_elem_of_filter.
  rewrite fix_revert_spaces in Hin. by apply list_elem_of_filter in Hin as [_ ?].
Qed.

Lemma fix_pragma_elem (x : text) c :
  c ∈ fix_pragma x -> c ∈ pragma_new \/ c ∈ x.
Proof.
  induction x as [|d s E IH|rest IH] using pragma_scan_ind.
  - rewrite fix_pragma_nil. by right.
  - rewrite fix_pragma_copy by done.
    intros [->|[?|?]%IH]%elem_of_cons; [right; left|by left|by right; right].
  - rewrite fix_pragma_match.
    intros [?|[?|?]%IH]%elem_of_app; [by left|by left|].
    right. apply elem_of_app. by right.
Qed.

(** X1. The revert script changes a text exactly when the text holds
    [revert], an identifier made of an upper-case letter and letters or
    digits, and [();] with nothing in between: an identifier with an
    underscore, a call with arguments or a space before the parenthesis
    is left as it is. *)
Theorem X1_revert_changes_iff_occurrence (x : text) :
  fix_revert x <> x <->
  exists u id v,
    is_ident id = true /\ x = u ++ str "revert" ++ id ++ str "();" ++ v.
Proof.
  rewrite <- revert_search, <- fix_revert_unchanged.
  by destruct (Re.search pattern x).
Qed.

(** X2. The revert rewrite makes a text longer by one character for each
    match and only puts spaces in: without its spaces the result is the
    text without its spaces.  The pragma rewrite keeps the length. *)
Theorem X2_size_and_spaces (x : text) :
  length (fix_revert x) = (length x + length (captured x))%nat
  /\ filter (fun c => c <> 32) (fix_revert x) = filter (fun c => c <> 32) x
  /\ length (fix_pragma x) = length x.
Proof.
  split; [apply fix_revert_length|].
  split; [apply fix_revert_spaces|apply fix_pragma_length].
Qed.

(** ** The two rewrites side by side *)

(** A text without spaces that ends with a semicolon and a text that
    has a space after six characters other than semicolons do not start
    the same way. *)
Lemma spaced_clash (d h y z : text) :
  length h = 6%nat -> 59 ∉ h ->
  d <> [] -> Forall (fun c => c <> 32) d -> last d = Some 59 ->
  d ++ z <> h ++ 32 :: y.
Proof.
  intros Hh Hsemi Hd Hsp Hl E.
  do 6 (destruct h as [|? h]; [done|]). destruct h; [|done].
  repeat (apply not_elem_of_cons in Hsemi as [? Hsemi]).
  destruct d as [|d0 d]; [done|].
  simpl in E. injection E as -> E.
  do 5 (destruct d as [|? d]; [by injection Hl|];
        simpl in E; injection E as -> E).
  destruct d as [|? d]; [by injection Hl|].
  simpl in E. injection E as -> E.
  by apply (Forall_lookup_1 _ _ 6%nat 32) in Hsp.
Qed.

Lemma ident_call_no_space id :
  is_ident id = true -> Forall (fun c => c <> 32) (id ++ str "();").
Proof.
  intros Hid. apply Forall_app. split; [|by repeat constructor].
  eapply Forall_impl; [by apply is_ident_alnum|].
  intros c Hc ->. by vm_compute in Hc.
Qed.

(** The pragma rewrite passes over an identifier and its parentheses. *)
Lemma fix_pragma_skip (m t : text) :
  (forall j, (j < length m)%nat ->
     Re.strip_prefix pragma_old (drop j m ++ t) = None) ->
  fix_pragma (m ++ t) = m ++ fix_pragma t.
Proof.
  induction m as [|c m IH]; intros H; [done|].
  rewrite <- !app_comm_cons, fix_pragma_copy.
  - rewrite IH; [done|]. intros j Hj. apply (H (S j)). simpl. lia.
  - apply (H 0%nat). simpl. lia.
Qed.

Lemma fix_pragma_ident id t :
  is_ident id = true ->
  fix_pragma (id ++ str "();" ++ t) = id ++ str "();" ++ fix_pragma t.
Proof.
  intros Hid. rewrite !app_assoc. apply fix_pragma_skip. intros j Hj.
  apply strip_prefix_None. intros [z E].
  change pragma_old with (str "pragma" ++ 32 :: str "solidity =0.8.15;") in E.
  rewrite <- app_assoc in E. revert E.
  apply spaced_clash;
    [done|apply (bool_decide_unpack _); by vm_compute| | |].
  - intros E%(f_equal length). rewrite length_drop in E. simpl in E. lia.
  - by apply Forall_drop, ident_call_no_space.
  - change (str "();") with ([40; 41] ++ [59]). rewrite app_assoc.
    apply last_drop_snoc. revert Hj. len. simpl. lia.
Qed.

Lemma fix_pragma_revert_word id t :
  is_ident id = true ->
  fix_pragma (str "revert" ++ id ++ str "();" ++ t)
  = str "revert" ++ id ++ str "();" ++ fix_pragma t.
Proof.
  intros Hid.
  change (str "revert" ++ ?x)
    with (114 :: 101 :: 118 :: 101 :: 114 :: 116 :: x).
  rewrite !fix_pragma_copy by reflexivity. by rewrite fix_pragma_ident.
Qed.

Lemma fix_pragma_revert_spaced id t :
  is_ident id = true ->
  fix_pragma (str "revert " ++ id ++ str "();" ++ t)
  = str "revert " ++ id ++ str "();" ++ fix_pragma t.
Proof.
  intros Hid.
  change (str "revert " ++ ?x)
    with (114 :: 101 :: 118 :: 101 :: 114 :: 116 :: 32 :: x).
  rewrite !fix_pragma_copy by reflexivity. by rewrite fix_pragma_ident.
Qed.

(** The revert rewrite passes over either pragma. *)
Lemma fix_revert_pragma_old t :
  fix_revert (pragma_old ++ t) = pragma_old ++ fix_revert t.
Proof.
  let l := eval vm_compute in pragma_old in change pragma_old with l.
  cbn [app]. by rewrite !fix_revert_copy by reflexivity.
Qed.

Lemma fix_revert_pragma_new t :
  fix_revert (pragma_new ++ t) = pragma_new ++ fix_revert t.
Proof.
  let l := eval vm_compute in pragma_new in change pragma_new with l.
  cbn [app]. by rewrite !fix_revert_copy by reflexivity.
Qed.

(** Neither rewrite makes a match for the other. *)
Lemma pragma_prefix_fix_revert s k :
  drop k pragma_old `prefix_of` fix_revert s ->
  drop k pragma_old `prefix_of` s.
Proof.
  revert k. induction s as [|c s E IH|id rest Hid IH] using revert_scan_ind;
    intros k.
  - by rewrite fix_revert_nil.
  - rewrite fix_revert_copy by done.
    destruct (drop k pragma_old) as [|d l] eqn:Ek; [intros; apply prefix_nil|].
    intros Hp. pose proof (prefix_cons_inv_1 _ _ _ _ Hp) as ->.
    apply prefix_cons_inv_2 in Hp. apply prefix_cons.
    apply drop_S_cons in Ek as <-. by apply IH.
  - rewrite fix_revert_match by done. intros Hp.
    destruct (decide (k < 24)%nat) as [Hk|Hk].
    + apply strip_prefix_None in Hp; [done|].
      change (str "revert " ++ ?x)
        with (114 :: 101 :: 118 :: 101 :: 114 :: 116 :: 32 :: x).
      clear -Hk. do 24 (destruct k as [|k]; [reflexivity|]). lia.
    + rewrite drop_ge by (len; lia). apply prefix_nil.
Qed.

Lemma revert_prefix_fix_pragma id s k :
  is_ident id = true ->
  drop k (str "revert" ++ id ++ str "();") `prefix_of` fix_pragma s ->
  drop k (str "revert" ++ id ++ str "();") `prefix_of` s.
Proof.
  intros Hid. revert k.
  induction s as [|c s E IH|rest IH] using pragma_scan_ind; intros k.
  - by rewrite fix_pragma_nil.
  - rewrite fix_pragma_copy by done.
    destruct (drop k _) as [|d l] eqn:Ek; [intros; apply prefix_nil|].
    intros Hp. pose proof (prefix_cons_inv_1 _ _ _ _ Hp) as ->.
    apply prefix_cons_inv_2 in Hp. apply prefix_cons.
    apply drop_S_cons in Ek as <-. by apply IH.
  - rewrite fix_pragma_match. intros [z E].
    destruct (decide (k < length (str "revert" ++ id ++ str "();"))%nat)
      as [Hk|Hk]; [|rewrite drop_ge by lia; apply prefix_nil].
    exfalso.
    change pragma_new
      with (str "pragma" ++ 32 :: str "solidity ^0.8.20;") in E.
    rewrite <- app_assoc in E. symmetry in E. revert E.
    apply spaced_clash;
    [done|apply (bool_decide_unpack _); by vm_compute| | |].
    + intros E%(f_equal length). rewrite length_drop in E.
      change (length (@nil N)) with 0%nat in E. lia.
    + by apply Forall_drop, revert_word_no_space.
    + change (str "();") with ([40; 41] ++ [59]). rewrite !app_assoc.
      apply last_drop_snoc. revert Hk. len. simpl. lia.
Qed.

Lemma strip_prefix_fix_revert c s :
  Re.strip_prefix pragma_old (c :: s) = None ->
  Re.strip_prefix pragma_old (c :: fix_revert s) = None.
Proof.
  intros E. destruct (revert_at (c :: s)) as [[id rest]|] eqn:Er.
  - apply revert_at_Some in Er as [_ Er].
    change (str "revert" ++ ?x)
      with (114 :: 101 :: 118 :: 101 :: 114 :: 116 :: x) in Er.
    by injection Er as -> _.
  - apply strip_prefix_None. intros Hp.
    apply strip_prefix_None in E as E'. apply E'.
    apply (pragma_prefix_fix_revert _ 0). by rewrite fix_revert_copy.
Qed.

Lemma revert_at_fix_pragma c s :
  revert_at (c :: s) = None -> revert_at (c :: fix_pragma s) = None.
Proof.
  intros E.
  destruct (revert_at (c :: fix_pragma s)) as [[id rest]|] eqn:E2; [|done].
  apply revert_at_Some in E2 as [Hid E2].
  assert (Re.strip_prefix pragma_old (c :: s) = None) as Ep.
  { change (str "revert" ++ ?x)
      with (114 :: 101 :: 118 :: 101 :: 114 :: 116 :: x) in E2.
    by injection E2 as -> _. }
  assert (drop 0 (str "revert" ++ id ++ str "();") `prefix_of` c :: s)
    as [y Hy].
  { apply revert_prefix_fix_pragma; [done|]. rewrite fix_pragma_copy by done.
    exists rest. rewrite E2, drop_0. by rewrite <- !app_assoc. }
  assert (revert_at (c :: s) = Some (id, y)); [|congruence].
  apply revert_at_Some. split; [done|]. rewrite Hy, drop_0.
  by rewrite <- !app_assoc.
Qed.

(** X3. The two rewrites commute: a text handled by both scripts ends
    up the same whichever script runs first. *)
Theorem X3_rewrites_commute (x : text) :
  fix_pragma (fix_revert x) = fix_revert (fix_pragma x).
Proof.
  remember (length x) as n eqn:Hn. revert x Hn.
  induction n as [n IH] using lt_wf_ind. intros x ->.
  destruct x as [|c s].
  { by rewrite fix_revert_nil, fix_pragma_nil, fix_revert_nil. }
  destruct (Re.strip_prefix pragma_old (c :: s)) as [rest|] eqn:Ep.
  - apply strip_prefix_Some in Ep. rewrite Ep.
    rewrite fix_revert_pragma_old, !fix_pragma_match, fix_revert_pragma_new.
    f_equal. eapply IH; [|done]. rewrite Ep. len. lia.
  - destruct (revert_at (c :: s)) as [[id rest]|] eqn:Er.
    + apply revert_at_Some in Er as [Hid Er]. rewrite Er.
      rewrite fix_revert_match, fix_pragma_revert_spaced by done.
      rewrite fix_pragma_revert_word, fix_revert_match by done.
      do 3 f_equal. eapply IH; [|done]. rewrite Er. len. lia.
    + rewrite (fix_revert_copy c s), (fix_pragma_copy c s) by done.
      rewrite fix_pragma_copy by by apply strip_prefix_fix_revert.
      rewrite fix_revert_copy by by apply revert_at_fix_pragma.
      f_equal. eapply IH; [|done]. simpl. lia.
Qed.

(** * Further properties of file access and of the runs *)

Lemma universal_newlines_no_cr (raw : text) : 13 ∉ universal_newlines raw.
Proof.
  remember (length raw) as n eqn:Hn. revert raw Hn.
  induction n as [n IH] using lt_wf_ind. intros raw ->.
  destruct raw as [|c r]; [apply not_elem_of_nil|].
  simpl. destruct (N.eqb_spec c 13) as [->|Hc].
  - destruct r as [|c2 r2];
      [apply not_elem_of_cons; split; [done|apply not_elem_of_nil]|].
    destruct (c2 =? 10); apply not_elem_of_cons; (split; [done|]);
      (eapply IH; [|done]); simpl; lia.
  - apply not_elem_of_cons. split; [done|]. eapply IH; [|done]. simpl. lia.
Qed.

Lemma universal_newlines_cons c (x : text) :
  c <> 13 -> universal_newlines (c :: x) = c :: universal_newlines x.
Proof. intros Hc. simpl. by destruct (N.eqb_spec c 13). Qed.

Lemma read_write_newlines plat (t : text) :
  13 ∉ t -> universal_newlines (write_newlines plat t) = t.
Proof.
  destruct plat.
  { intros. by rewrite write_newlines_posix, universal_newlines_id. }
  unfold write_newlines. induction t as [|c t IH]; [done|].
  intros [Hc Ht]%not_elem_of_cons. cbn [flat_map].
  destruct (N.eqb_spec c 10) as [->|Hc10].
  - change (os_linesep Windows ++ ?x) with (13 :: 10 :: x).
    change (universal_newlines (13 :: 10 :: ?x))
      with (10 :: universal_newlines x).
    by rewrite IH.
  - change ([c] ++ ?x) with (c :: x).
    rewrite universal_newlines_cons by done. by rewrite IH.
Qed.

Lemma new_text_no_cr s raw : 13 ∉ new_text (script_of s) raw.
Proof.
  pose proof (universal_newlines_no_cr raw) as Hr.
  unfold new_text. destruct s; simpl.
  - intros [?|?]%fix_revert_elem; done.
  - intros [H|?]%fix_pragma_elem; [|done].
    revert H. apply (bool_decide_unpack _). by vm_compute.
Qed.

Lemma changes_false sc raw :
  changes sc raw = false <-> new_text sc raw = universal_newlines raw.
Proof.
  unfold changes. rewrite bool_decide_eq_false.
  split; [|by intros -> ?]. intros H.
  by destruct (decide (new_text sc raw = universal_newlines raw)).
Qed.

(** Read back, a file holds the text the script computed for it. *)
Lemma stored_after_read plat s raw :
  universal_newlines (stored_after plat (script_of s) raw)
  = new_text (script_of s) raw.
Proof.
  unfold stored_after. destruct (changes _ raw) eqn:Hc.
  - apply read_write_newlines, new_text_no_cr.
  - symmetry. by apply changes_false.
Qed.

Lemma stored_after_changed plat s raw :
  changes (script_of s) raw = true ->
  stored_after plat (script_of s) raw <> raw.
Proof.
  intros Hc E. apply (f_equal universal_newlines) in E.
  rewrite stored_after_read in E. apply changes_false in E. congruence.
Qed.

Section Quiet.
Variable plat : platform.
Variable sc : script.

(** Files that need no change are read and nothing else happens. *)
Lemma for_each_process_quiet l w :
  (forall p, p ∈ l ->
     exists raw, disk w !! p = Some raw /\ changes sc raw = false) ->
  for_each (process plat sc ∅) l w
  = (Completed, World (tree w) (disk w) (trace w ++ map Read l)).
Proof.
  revert w. induction l as [|p l IH]; intros w H.
  - simpl. rewrite app_nil_r. by destruct w.
  - simpl. rewrite process_eq.
    destruct (H p) as (raw & -> & ->); [left|].
    rewrite IH; [|intros q Hq; apply H; by right].
    simpl. by rewrite <- app_assoc.
Qed.

(** The body of the loop neither creates nor deletes a file and leaves
    the listing alone. *)
Lemma for_each_process_dom l w o w' :
  for_each (process plat sc ∅) l w = (o, w') ->
  tree w' = tree w /\ dom (disk w') = dom (disk w).
Proof.
  revert w. induction l as [|p l IH]; intros w.
  - by intros [= <- <-].
  - simpl. rewrite process_eq.
    destruct (disk w !! p) as [raw|] eqn:Ed; [|by intros [= <- <-]].
    destruct (changes sc raw); cbv zeta.
    + intros [-> ->]%IH. simpl. split; [done|].
      by apply dom_insert_lookup_L.
    + by intros [-> ->]%IH.
Qed.

(** The loop completes exactly when every file can be opened. *)
Lemma for_each_process_outcome l w :
  fst (for_each (process plat sc ∅) l w) = Completed <->
  Forall (fun p => is_Some (disk w !! p)) l.
Proof.
  revert w. induction l as [|p l IH]; intros w.
  - simpl. by split.
  - rewrite Forall_cons. simpl. rewrite process_eq.
    destruct (disk w !! p) as [raw|] eqn:Ed.
    2:{ simpl. split; [done|]. by intros [[? [=]] _]. }
    assert (forall w1, dom (disk w1) = dom (disk w) ->
              fst (for_each (process plat sc ∅) l w1) = Completed <->
              is_Some (Some raw) /\
              Forall (fun p => is_Some (disk w !! p)) l) as Hstep.
    { intros w1 Hdom. rewrite IH. split.
      - intros Hl. split; [done|]. eapply Forall_impl; [exact Hl|].
        intros q. by rewrite <- !elem_of_dom, Hdom.
      - intros [_ Hl]. eapply Forall_impl; [exact Hl|].
        intros q. by rewrite <- !elem_of_dom, Hdom. }
    destruct (changes sc raw); cbv zeta; apply Hstep; simpl; [|done].
    by apply dom_insert_lookup_L.
Qed.

(** The accesses have the shape of the loop body. *)
Lemma for_each_process_steps l w o w' :
  for_each (process plat sc ∅) l w = (o, w') ->
  exists evs, trace w' = trace w ++ evs /\ Steps sc evs.
Proof.
  revert w. induction l as [|p l IH]; intros w.
  - intros [= <- <-]. exists []. rewrite app_nil_r. split; [done|constructor].
  - simpl. rewrite process_eq.
    destruct (disk w !! p) as [raw|] eqn:Ed.
    2:{ intros [= <- <-]. exists [Read p]. split; [done|].
        repeat constructor. }
    destruct (changes sc raw); cbv zeta.
    + intros (evs & -> & Hs)%IH. simpl. eexists (_ :: _ :: _ :: evs).
      rewrite <- app_assoc. split; [done|]. by constructor.
    + intros (evs & -> & Hs)%IH. simpl. exists (Read p :: evs).
      rewrite <- app_assoc. split; [done|]. by constructor.
Qed.
End Quiet.


Lemma run_tree plat s t d : tree (snd (run plat s t d)) = t.
Proof.
  unfold run, run_with. rewrite main_eq. simpl tree.
  destruct (for_each _ _ _) as [[] w1] eqn:H;
    apply for_each_process_dom in H as [Ht _]; simpl.
  - by rewrite epilogue_eq.
  - done.
Qed.

(** After a completed run over distinct paths, a second run finds every
    file as it wants it, when the rewrite of each file is stable. *)
Lemma second_run_quiet plat s t d w1 :
  NoDup (targets plat (top (script_of s)) t) ->
  run plat s t d = (Completed, w1) ->
  (forall p raw, p ∈ targets plat (top (script_of s)) t ->
     d !! p = Some raw ->
     Re.sub (pat (script_of s)) (repl (script_of s))
       (new_text (script_of s) raw) = new_text (script_of s) raw) ->
  run plat s t (disk w1)
  = (Completed,
     World t (disk w1)
       (map Read (targets plat (top (script_of s)) t)
        ++ map Print (epilogue (script_of s)))).
Proof.
  intros Hnd Hrun Hstable.
  destruct (run_facts_nodup _ _ _ _ _ _ Hnd Hrun) as (_ & Hfiles & _).
  pose proof Hrun as (_ & Hall & _)%run_facts. specialize (Hall eq_refl).
  assert (Forall (fun p => is_Some (d !! p))
            (targets plat (top (script_of s)) t)) as Hopen.
  { apply (proj1 (for_each_process_outcome plat (script_of s) _
                     (World t d []))).
    apply run_inv in Hrun as (w & Hfe & _). by rewrite Hfe. }
  unfold run, run_with. rewrite main_eq. simpl tree.
  rewrite for_each_process_quiet.
  - by rewrite epilogue_eq.
  - intros p Hp. simpl.
    destruct (proj1 (Forall_forall _ _) Hopen p Hp) as [raw Hraw].
    exists (stored_after plat (script_of s) raw). split.
    + apply Hfiles; [by rewrite Hall|done].
    + apply changes_false. unfold new_text at 1.
      rewrite stored_after_read. by apply (Hstable p).
Qed.

(** X4. Text mode round trip: what is read holds no CR, and a text
    without CR that is written and read again, on either platform, is
    the same text; so is, in particular, the text read from any file. *)
Theorem X4_text_mode_round_trip (plat : platform) (raw : text) :
  (13 ∉ universal_newlines raw)
  /\ universal_newlines (write_newlines plat (universal_newlines raw))
     = universal_newlines raw
  /\ forall t : text,
       13 ∉ t -> universal_newlines (write_newlines plat t) = t.
Proof.
  split; [apply universal_newlines_no_cr|]. split.
  - apply read_write_newlines, universal_newlines_no_cr.
  - apply read_write_newlines.
Qed.

(** X5. Over a listing that repeats no path, a file that has been read
    holds afterwards, read again in text mode, the substitution of the
    text that was read from it, whether or not it was written. *)
Theorem X5_read_back (plat : platform) (s : which)
    (t : option (list dirent)) (d : gmap text text) (o : outcome)
    (w' : world) (p raw : text) :
  NoDup (targets plat (top (script_of s)) t) ->
  run plat s t d = (o, w') ->
  p ∈ reads (trace w') ->
  d !! p = Some raw ->
  universal_newlines <$> disk w' !! p
  = Some (Re.sub (pat (script_of s)) (repl (script_of s))
            (universal_newlines raw)).
Proof.
  intros Hnd Hrun Hr Hp.
  destruct (run_facts_nodup _ _ _ _ _ _ Hnd Hrun) as (_ & Hfiles & _).
  rewrite (Hfiles p raw Hr Hp). simpl. by rewrite stored_after_read.
Qed.

Lemma X5_witness :
  universal_newlines
    <$> disk (snd (run Windows FixSolidityVersion
                     (Some [FileEnt (str "P.sol")])
                     {[ os_path_join Windows periphery_dir (str "P.sol")
                        := 13 :: str "pragma solidity =0.8.15;" ]}))
        !! os_path_join Windows periphery_dir (str "P.sol")
  = Some (10 :: str "pragma solidity ^0.8.20;").
Proof.
  refine (X5_read_back Windows FixSolidityVersion
            (Some [FileEnt (str "P.sol")]) _ _ _ _
            (13 :: str "pragma solidity =0.8.15;") _
            (surjective_pairing _) _ _).
  - apply (bool_decide_unpack _). by vm_compute.
  - apply (bool_decide_unpack _). by vm_compute.
  - by vm_compute.
Defined.

(** X6. Over a listing that repeats no path, a file that has been read
    is written exactly when its stored content is different afterwards:
    no write leaves the bytes as they were. *)
Theorem X6_written_iff_bytes_differ (plat : platform) (s : which)
    (t : option (list dirent)) (d : gmap text text) (o : outcome)
    (w' : world) (p raw : text) :
  NoDup (targets plat (top (script_of s)) t) ->
  run plat s t d = (o, w') ->
  p ∈ reads (trace w') ->
  d !! p = Some raw ->
  (p ∈ writes (trace w') <-> disk w' !! p <> Some raw).
Proof.
  intros Hnd Hrun Hr Hp.
  destruct (run_facts_nodup _ _ _ _ _ _ Hnd Hrun) as (_ & Hfiles & _).
  destruct (run_writes _ _ _ _ _ _ _ _ Hrun Hp) as [Hsame Hdiff].
  rewrite (Hfiles p raw Hr Hp).
  destruct (changes (script_of s) raw) eqn:Hc.
  - split; [|by intros _; apply Hdiff]. intros _ [= E].
    by apply stored_after_changed in E.
  - destruct (Hsame eq_refl) as [Hnw _]. split; [done|].
    intros H. destruct H. unfold stored_after. by rewrite Hc.
Qed.

Lemma X6_witness :
  example_path FixRevert [str "A.sol"]
  ∈ writes (trace (snd (run Posix FixRevert example_tree
                          (example_disk FixRevert)))).
Proof.
  refine (proj2 (X6_written_iff_bytes_differ Posix FixRevert example_tree
                   (example_disk FixRevert) _ _
                   (example_path FixRevert [str "A.sol"]) _ _
                   (surjective_pairing _) _ eq_refl) _).
  - apply (bool_decide_unpack _). by vm_compute.
  - apply (bool_decide_unpack _). by vm_compute.
  - by vm_compute.
Defined.

(** X7. A run neither creates nor deletes a file and leaves the listing
    of the directories as it is: the same paths can be opened before
    and after, whatever the outcome. *)
Theorem X7_no_file_created_or_deleted (plat : platform) (s : which)
    (t : option (list dirent)) (d : gmap text text) :
  tree (snd (run plat s t d)) = t
  /\ dom (disk (snd (run plat s t d))) = dom d.
Proof.
  split; [apply run_tree|].
  destruct (run plat s t d) as [o w'] eqn:Hrun. cbn [snd].
  apply run_inv in Hrun as (w1 & Hrun & Hd & _). rewrite Hd.
  by apply for_each_process_dom in Hrun as [_ ->].
Qed.




(** X10. The trace of a run is the accesses of the loop body, file
    after file, and then the last line of the script when the run
    completes: a file is written only right after it was read, and the
    line that reports it is printed right after the write and at no
    other time. *)
Theorem X10_trace_shape (plat : platform) (s : which)
    (t : option (list dirent)) (d : gmap text text) :
  exists evs,
    trace (snd (run plat s t d))
    = evs ++ map Print (match fst (run plat s t d) with
                        | Completed => epilogue (script_of s)
                        | Raised => []
                        end)
    /\ Steps (script_of s) evs.
Proof.
  destruct (run plat s t d) as [o w'] eqn:Hrun. cbn [fst snd].
  apply run_inv in Hrun as (w1 & Hrun & _ & Htr).
  apply for_each_process_steps in Hrun as (evs & Hevs & Hs).
  exists evs. split; [|done]. rewrite Htr, Hevs. simpl. by destruct o.
Qed.

(** X11. Running the pragma script again after a run that completed,
    over a listing that repeats no path, reads every file, writes none,
    leaves the disk as it is and prints [Done!] only. *)
Theorem X11_pragma_second_run (plat : platform)
    (t : option (list dirent)) (d : gmap text text) (w1 : world) :
  NoDup (targets plat periphery_dir t) ->
  run plat FixSolidityVersion t d = (Completed, w1) ->
  run plat FixSolidityVersion t (disk w1)
  = (Completed,
     World t (disk w1)
       (map Read (targets plat periphery_dir t) ++ [Print (str "Done!")])).
Proof.
  intros Hnd Hrun.
  apply (second_run_quiet plat FixSolidityVersion t d w1 Hnd Hrun).
  intros p raw _ _. apply fix_pragma_idempotent.
Qed.

Lemma X11_witness :
  writes (trace (snd (run Posix FixSolidityVersion example_tree
                        (disk (snd (run Posix FixSolidityVersion example_tree
                                      (example_disk FixSolidityVersion)))))))
  = [].
Proof.
  rewrite (X11_pragma_second_run Posix example_tree
             (example_disk FixSolidityVersion)
             (snd (run Posix FixSolidityVersion example_tree
                     (example_disk FixSolidityVersion)))).
  - reflexivity.
  - apply (bool_decide_unpack _). by vm_compute.
  - by vm_compute.
Defined.

(** X12. The same holds for the revert script when no identifier that
    the first run captures in a file holds a match of its own. *)
Theorem X12_revert_second_run (plat : platform)
    (t : option (list dirent)) (d : gmap text text) (w1 : world) :
  NoDup (targets plat contracts_dir t) ->
  run plat FixRevert t d = (Completed, w1) ->
  (forall p raw, p ∈ targets plat contracts_dir t -> d !! p = Some raw ->
     Forall (fun id => Re.search pattern (id ++ str "();") = false)
       (captured (universal_newlines raw))) ->
  run plat FixRevert t (disk w1)
  = (Completed, World t (disk w1) (map Read (targets plat contracts_dir t))).
Proof.
  intros Hnd Hrun Hclean.
  rewrite (second_run_quiet plat FixRevert t d w1 Hnd Hrun).
  - simpl. by rewrite app_nil_r.
  - intros p raw Hp Hraw. apply fix_revert_twice. by apply (Hclean p).
Qed.

Lemma writes_reads l : writes (map Read l) = [].
Proof. by induction l. Qed.

Lemma X12_witness :
  writes (trace (snd (run Posix FixRevert example_tree
                        (disk (snd (run Posix FixRevert example_tree
                                      (example_disk FixRevert)))))))
  = [].
Proof.
  rewrite (X12_revert_second_run Posix example_tree
             (example_disk FixRevert)
             (snd (run Posix FixRevert example_tree
                     (example_disk FixRevert)))).
  - cbn [snd trace]. apply writes_reads.
  - apply (bool_decide_unpack _). by vm_compute.
  - by vm_compute.
  - intros p raw Hp Hraw. apply list_elem_of_In in Hp.
    vm_compute in Hp.
    destruct Hp as [<-|[<-|[]]]; vm_compute in Hraw;
      injection Hraw as <-; apply (bool_decide_unpack _); by vm_compute.
Defined.

(** ** The walk finds the files at every depth *)

Lemma paths_of_app plat trs1 trs2 :
  paths_of plat (trs1 ++ trs2) = paths_of plat trs1 ++ paths_of plat trs2.
Proof. apply flat_map_app. Qed.

Lemma paths_of_flat_map {A} plat
    (g : A -> list (text * list text * list text)) (l : list A) p :
  p ∈ paths_of plat (flat_map g l) <-> exists x, x ∈ l /\ p ∈ paths_of plat (g x).
Proof.
  induction l as [|x l IH]; simpl.
  - split; [by intros ?%elem_of_nil|]. by intros (x & ?%elem_of_nil & _).
  - rewrite paths_of_app, elem_of_app, IH. split.
    + intros [Hx|(y & Hy & Hp)]; [exists x; split; [left|done]|].
      exists y. split; [by right|done].
    + intros (y & [->|Hy]%elem_of_cons & Hp); [by left|].
      right. by exists y.
Qed.

Lemma filenames_spec es f : f ∈ filenames es <-> FileEnt f ∈ es.
Proof.
  unfold filenames. rewrite list_elem_of_In, in_flat_map. split.
  - intros ([n|n sub] & He%list_elem_of_In & Hf%list_elem_of_In).
    + by apply list_elem_of_singleton in Hf as ->.
    + by apply elem_of_nil in Hf.
  - intros He. exists (FileEnt f). rewrite <- !list_elem_of_In.
    split; [done|]. by apply list_elem_of_singleton.
Qed.

Lemma FileAt_inv es dirs f :
  FileAt es dirs f <->
  (dirs = [] /\ FileEnt f ∈ es)
  \/ (exists n sub dirs', dirs = n :: dirs' /\ DirEnt n sub ∈ es
                          /\ FileAt sub dirs' f).
Proof.
  split.
  - intros [es' f' H|es' n sub dirs' f' H1 H2]; [by left|].
    right. by exists n, sub, dirs'.
  - intros [[-> H]|(n & sub & dirs' & -> & H1 & H2)];
      [by constructor|by econstructor].
Qed.

Lemma listing_paths plat here es p :
  Forall (below plat) es ->
  p ∈ paths_of plat
        ((here, dirnames es, filenames es)
           :: flat_map (walk_dir plat here) es) <->
  exists dirs f,
    FileAt es dirs f /\ endswith f (str ".sol") = true
    /\ p = foldl (os_path_join plat) here (dirs ++ [f]).
Proof.
  intros Hes.
  change (paths_of plat (?x :: ?l))
    with (paths_of plat ([x] ++ l)).
  rewrite paths_of_app, elem_of_app, paths_of_flat_map. split.
  - intros [Hp|(e & He & Hp)].
    + unfold paths_of in Hp. simpl in Hp. rewrite app_nil_r in Hp.
      apply list_elem_of_fmap in Hp as (f & -> & Hf).
      apply list_elem_of_filter in Hf as [Hsol Hf%filenames_spec].
      exists [], f. split; [by constructor|done].
    + pose proof (proj1 (Forall_forall _ _) Hes e He here p) as Hb.
      destruct e as [n|n sub]; [by apply Hb in Hp|].
      apply Hb in Hp as (dirs & f & Hat & Hsol & ->).
      exists (n :: dirs), f. split; [by econstructor|done].
  - intros (dirs & f & Hat & Hsol & ->).
    apply FileAt_inv in Hat as [[-> Hf]|(n & sub & dirs' & -> & Hd & Hat)].
    + left. unfold paths_of. simpl. rewrite app_nil_r.
      apply list_elem_of_fmap. exists f. split; [done|].
      apply list_elem_of_filter. split; [done|]. by apply filenames_spec.
    + right. exists (DirEnt n sub). split; [done|].
      apply (proj1 (Forall_forall _ _) Hes _ Hd here). by exists dirs', f.
Qed.

Lemma below_all plat e : below plat e.
Proof.
  induction e as [n|n sub IH] using dirent_ind'; intros parent p.
  - simpl. split; [by intros ?%elem_of_nil|done].
  - by apply listing_paths.
Qed.

(** X13. The walk is recursive: the paths handed to [open] are exactly
    the paths of the files, at any depth below the directory the walk
    starts from, whose name ends with [.sol], each made of the
    directory names on the way and the file name, joined in order. *)
Theorem X13_recursive_discovery (plat : platform) (top : text)
    (es : list dirent) (p : text) :
  p ∈ targets plat top (Some es) <->
  exists dirs f,
    FileAt es dirs f /\ endswith f (str ".sol") = true
    /\ p = foldl (os_path_join plat) top (dirs ++ [f]).
Proof.
  apply (listing_paths plat top es p), Forall_forall.
  intros e _. apply below_all.
Qed.
